(** * Guess-the-card: a shallow embedding of [src/src/App.tsx]

    The React component [App] keeps six pieces of state, fills the deck in
    an effect at mount time and changes the state in its event handlers.
    The embedding follows the source function by function:

    - [getCardNumber], [factorial], [getPermutationNumber] are the pure
      helpers of the component;
    - [handleCardClick], [handleReorder], [handleReset], the toggle
      [toggleReveal] and the effect [mountEffect] are functions from the
      state read by the closure to the state after the scheduled updates;
    - [Array.prototype.sort] is the engine's: it is modelled after V8's
      TimSort on the arrays of fewer than 64 elements, which is all the
      program sorts (four cards, or a deck of at most 52), and threads the
      state of its comparator, so that the same definition serves the
      numeric comparator and the [Math.random] one.

    JavaScript numbers that the program only ever uses as integers are
    [Z]; a number that may be [NaN] is an [option Z] with [None] for [NaN];
    the result of [Math.random] is a [Q]. *)

From Stdlib Require Import ZArith QArith Lia.
From stdpp Require Import base list strings gmap sorting pretty.
From Equations Require Import Equations.

Local Open Scope Z_scope.

(** ** Data model *)

(** [interface Card { suit; value; image }].  A card is a JavaScript
    object, so it also has an identity: [oid] is the allocation stamp of
    the object.  Two object literals evaluated at different times are
    different values even when all their fields agree, and [===] on cards
    is equality of the whole record, stamp included. *)
Record Card := mkCard {
  oid : nat;
  suit : string;
  value : Z;
  image : string
}.

#[global] Instance Card_eq_dec : EqDecision Card.
Proof. solve_decision. Defined.

(** [type GamePhase = 'selection' | 'reordered'] *)
Inductive GamePhase := selection | reordered.

#[global] Instance GamePhase_eq_dec : EqDecision GamePhase.
Proof. solve_decision. Defined.

(** The six [useState] cells of [App]. *)
Record AppState := mkState {
  deck : list Card;
  selectedCards : list Card;
  reorderedCards : list Card;
  gamePhase : GamePhase;
  isLoading : bool;
  showHiddenCard : bool
}.

(** The values given to [useState] at the first render. *)
Definition initialState : AppState :=
  {| deck := []; selectedCards := []; reorderedCards := [];
     gamePhase := selection; isLoading := true; showHiddenCard := false |}.

(** ** Numbers that may be NaN *)

(** [a - b] on numbers: [NaN] as soon as one side is. *)
Definition numSub (a b : option Z) : option Z :=
  x ← a; y ← b; Some (x - y).

(** What [sort] reads off the number its comparator returned: the sign,
    with [NaN] counted as [+0]. *)
Definition signOf (v : option Z) : comparison :=
  match v with
  | Some z => z ?= 0
  | None => Eq
  end.

(** ** Array.prototype.sort *)

(** The program passes its arrays to the engine's sort.  The model follows
    V8 (array-sort.tq).  An array of fewer than 64 elements is sorted as one
    run: [CountAndMakeRun] finds the run the array starts with, reversing
    it when it is strictly descending, and [BinaryInsertionSort] inserts
    the remaining elements one by one.  Longer arrays, which V8 splits into
    several runs and merges, are not modelled: the program never builds
    one.  The comparator is asked in V8's order and with V8's arguments,
    which is what a comparator with a state of its own observes. *)
Section Sort.
Context {A St : Type}.

(** The comparator, as the sign of the number it returns, together with
    the state it leaves behind ([Math.random] advances its generator). *)
Variable comparefn : A → A → St → comparison * St.

(** [order < 0] *)
Definition negative (order : comparison) : bool :=
  match order with
  | Lt => true
  | _ => false
  end.

(** The loop of [CountAndMakeRun]: how many elements after the second
    one continue the run. *)
Fixpoint extendRun (isDescending : bool) (previousElement : A) (rest : list A)
    (s : St) : nat * St :=
  match rest with
  | [] => (0%nat, s)
  | currentElement :: rest' =>
      let (order, s1) := comparefn currentElement previousElement s in
      if (if isDescending then negb (negative order) else negative order)
      then (0%nat, s1)
      else
        let (n, s2) := extendRun isDescending currentElement rest' s1 in
        (S n, s2)
  end.

(** [CountAndMakeRun(0, length)]: the length of the run and the array
    with the run made ascending. *)
Definition countAndMakeRun (arr : list A) (s : St) : nat * list A * St :=
  match arr with
  | elementHigh :: elementLow :: rest =>
      let (order, s1) := comparefn elementLow elementHigh s in
      let isDescending := negative order in
      let (n, s2) := extendRun isDescending elementLow rest s1 in
      let runLength := S (S n) in
      (runLength,
       if isDescending then reverse (take runLength arr) ++ drop runLength arr
       else arr,
       s2)
  | _ => (length arr, arr, s)
  end.

(** The binary search of [BinaryInsertionSort]:
    [while (left < right) { mid = left + ((right - left) >> 1); ... }]. *)
Equations? findInsertion (arr : list A) (pivot : A) (lo hi : nat) (s : St) :
    nat * St by wf (hi - lo)%nat lt :=
  findInsertion arr pivot lo hi s with decide (lo < hi)%nat := {
    | right _ => (lo, s)
    | left _ with arr !! (lo + (hi - lo) / 2)%nat := {
      | None => (lo, s)
      | Some x with comparefn pivot x s := {
        | (Lt, s1) => findInsertion arr pivot lo (lo + (hi - lo) / 2)%nat s1
        | (_, s1) => findInsertion arr pivot (S (lo + (hi - lo) / 2))%nat hi s1 } } }.
Proof.
  all: change (Nat.divmod (hi - lo) 1 0 1).1 with ((hi - lo) / 2)%nat;
    assert ((hi - lo) / 2 < hi - lo)%nat by (apply Nat.div_lt; lia); lia.
Qed.

(** One turn of the outer loop of [BinaryInsertionSort]: the element at
    [start] is moved to the place the search gives. *)
Definition insertPivot (arr : list A) (start : nat) (s : St) : list A * St :=
  match arr !! start with
  | Some pivot =>
      let (left, s1) := findInsertion arr pivot 0 start s in
      (take left arr ++ pivot :: drop left (take start arr) ++ drop (S start) arr,
       s1)
  | None => (arr, s)
  end.

Fixpoint binaryInsertionSort (arr : list A) (start count : nat) (s : St) :
    list A * St :=
  match count with
  | O => (arr, s)
  | S count' =>
      let (arr', s1) := insertPivot arr start s in
      binaryInsertionSort arr' (S start) count' s1
  end.

Definition sort (l : list A) (s : St) : list A * St :=
  if decide (length l < 2)%nat then (l, s)
  else
    let '(runLength, arr, s1) := countAndMakeRun l s in
    binaryInsertionSort arr runLength (length l - runLength)%nat s1.
End Sort.

(** A comparator that has no state of its own. *)
Definition stateless {A} (comparefn : A → A → comparison) :
    A → A → unit → comparison * unit :=
  λ a b s, (comparefn a b, s).

Definition sortPure {A} (comparefn : A → A → comparison) (l : list A) : list A :=
  fst (sort (stateless comparefn) l ()).

(** ** Math.random *)

(** The generator is an oracle: [outcomes n] is the number the [n]-th call
    returns, [drawn] counts the calls made so far. *)
Record RandomSource := mkRandom {
  outcomes : nat → Q;
  drawn : nat
}.

Definition Math_random (r : RandomSource) : Q * RandomSource :=
  (outcomes r (drawn r), {| outcomes := outcomes r; drawn := S (drawn r) |}).

(** [() => Math.random() - 0.5], as [sort] sees it. *)
Definition randomComparator (a b : Card) (r : RandomSource) : comparison * RandomSource :=
  let (x, r') := Math_random r in
  (Qcompare (x - (1 # 2))%Q 0%Q, r').

(** [array.sort(() => Math.random() - 0.5)], the expression both the mount
    effect and [handleReset] shuffle the deck with. *)
Definition shuffle (d : list Card) (r : RandomSource) : list Card * RandomSource :=
  sort randomComparator d r.

(** ** getCardNumber *)

Definition suitOrder : gmap string Z :=
  {[ "spades" := 0; "clubs" := 1; "hearts" := 2; "diamonds" := 3 ]}.

(** [card.value + (suitOrder[card.suit] * 13)]; a suit that is not a key
    of [suitOrder] reads [undefined] and the sum is [NaN]. *)
Definition getCardNumber (card : Card) : option Z :=
  n ← suitOrder !! suit card; Some (value card + n * 13).

(** ** factorial *)

(** The recursion of the source on integers.  The source multiplies
    doubles; its products are exact up to 22!, far beyond the 3! the
    program asks for. *)

Equations? factorial (n : Z) : Z by wf (Z.to_nat n) lt :=
  factorial n with decide (n ≤ 1) := {
    | left _ => 1
    | right _ => n * factorial (n - 1) }.
Proof. lia. Qed.

(** ** getPermutationNumber *)

(** The objects built by [cards.map((card, idx) => ...)]. *)
Record CardData := mkCardData {
  card : Card;
  number : option Z;
  originalIndex : Z
}.

Definition cardDataOf (cards : list Card) : list CardData :=
  imap (λ idx c,
          {| card := c; number := getCardNumber c; originalIndex := Z.of_nat idx |})
       cards.

(** [(a, b) => a.number - b.number] *)
Definition compareNumber (a b : CardData) : comparison :=
  signOf (numSub (number a) (number b)).

(** [[...cardData].sort((a, b) => a.number - b.number)] *)
Definition sortedData (cards : list Card) : list CardData :=
  sortPure compareNumber (cardDataOf cards).

(** [findIndex]: the first index whose element satisfies [p], or [-1]. *)
Fixpoint findIndexFrom {A} (p : A → bool) (l : list A) (i : Z) : Z :=
  match l with
  | [] => -1
  | x :: l' => if p x then i else findIndexFrom p l' (i + 1)
  end.

Definition findIndex {A} (p : A → bool) (l : list A) : Z := findIndexFrom p l 0.

(** The array [originalOrder] once the [forEach] has run. *)
Definition originalOrderOf (cards : list Card) : list Z :=
  (λ c, findIndex (λ item, bool_decide (card item = c)) (sortedData cards)) <$> cards.

(** The two variables the Lehmer loop updates.  [used] is a JavaScript
    array and is read and written as one: a key that was never written
    reads [undefined]. *)
Record LehmerState := mkLehmer {
  permNumber : Z;
  used : gmap Z bool
}.

Definition lehmerInit : LehmerState :=
  {| permNumber := 1;
     used := {[ 0 := false; 1 := false; 2 := false; 3 := false ]} |}.

(** [for (let j = 0; j < value; j++) if (!used[j]) count++] *)
Definition countUnused (used : gmap Z bool) (value : Z) : Z :=
  foldl (λ count j, if negb (default false (used !! j)) then count + 1 else count)
        0 (seqZ 0 value).

(** The body of [for (let i = 0; i < 4; i++)]. *)
Definition lehmerStep (originalOrder : list Z) (st : LehmerState) (i : Z) : LehmerState :=
  match originalOrder !! Z.to_nat i with
  | Some value =>
      let count := countUnused (used st) value in
      {| permNumber := permNumber st + count * factorial (3 - i);
         used := <[ value := true ]> (used st) |}
  | None => st
  end.

(** The loop, stopped after its first [n] iterations. *)
Definition lehmerLoopUpTo (originalOrder : list Z) (n : Z) : LehmerState :=
  foldl (lehmerStep originalOrder) lehmerInit (seqZ 0 n).

Definition lehmerLoop (originalOrder : list Z) : LehmerState :=
  lehmerLoopUpTo originalOrder 4.

(** The value of the local [count] in iteration [i]. *)
Definition countAt (originalOrder : list Z) (i : Z) : Z :=
  match originalOrder !! Z.to_nat i with
  | Some value => countUnused (used (lehmerLoopUpTo originalOrder i)) value
  | None => 0
  end.

Definition getPermutationNumber (cards : list Card) : Z :=
  if decide (length cards ≠ 4%nat) then 0
  else permNumber (lehmerLoop (originalOrderOf cards)).

(** ** Handlers *)

(** [selectedCards.some(c => c.suit === card.suit && c.value === card.value)] *)
Definition alreadySelected (selected : list Card) (c0 : Card) : bool :=
  existsb (λ c, bool_decide (suit c = suit c0) && bool_decide (value c = value c0)) selected.

Definition handleCardClick (st : AppState) (c0 : Card) : AppState :=
  if decide (gamePhase st ≠ selection) then st
  else if decide (5 ≤ length (selectedCards st))%nat then st
  else if alreadySelected (selectedCards st) c0 then st
  else {| deck := deck st;
          selectedCards := selectedCards st ++ [c0];
          reorderedCards := reorderedCards st;
          gamePhase := gamePhase st;
          isLoading := isLoading st;
          showHiddenCard := showHiddenCard st |}.

(** The objects built by [firstFour.map(card => ({ card, number }))]. *)
Record CardNumber := mkCardNumber {
  cn_card : Card;
  cn_number : option Z
}.

(** [sorted.map(item => item.card)] of [handleReorder]. *)
Definition sortedCardsOf (firstFour : list Card) : list Card :=
  let cardNumbers :=
    (λ c, {| cn_card := c; cn_number := getCardNumber c |}) <$> firstFour in
  let sorted :=
    sortPure (λ a b, signOf (numSub (cn_number a) (cn_number b))) cardNumbers in
  cn_card <$> sorted.

Definition handleReorder (st : AppState) : AppState :=
  if decide (length (selectedCards st) ≠ 5%nat) then st
  else
    let firstFour := take 4 (selectedCards st) in
    match selectedCards st !! 4%nat with
    | None => st
    | Some fifthCard =>
        let sortedCards := sortedCardsOf firstFour in
        let permNumber := getPermutationNumber firstFour in
        {| deck := deck st;
           selectedCards := selectedCards st;
           reorderedCards := fifthCard :: sortedCards;
           gamePhase := reordered;
           isLoading := isLoading st;
           showHiddenCard := false |}
    end.

Definition handleReset (st : AppState) (r : RandomSource) : AppState * RandomSource :=
  let (shuffled, r') := shuffle (deck st) r in
  ({| deck := shuffled;
      selectedCards := [];
      reorderedCards := [];
      gamePhase := selection;
      isLoading := isLoading st;
      showHiddenCard := false |}, r').

(** [onClick={() => setShowHiddenCard(!showHiddenCard)}] *)
Definition toggleReveal (st : AppState) : AppState :=
  {| deck := deck st;
     selectedCards := selectedCards st;
     reorderedCards := reorderedCards st;
     gamePhase := gamePhase st;
     isLoading := isLoading st;
     showHiddenCard := negb (showHiddenCard st) |}.

(** ** The mount effect: deck generation *)

Definition suits : list string := ["clubs"; "diamonds"; "hearts"; "spades"].

Fixpoint zeros (n : nat) : string :=
  match n with
  | O => ""
  | S n' => "0" +:+ zeros n'
  end.

(** [s.padStart(2, '0')] *)
Definition padStart2 (s : string) : string :=
  zeros (2 - String.length s) +:+ s.

Definition imagePathOf (suit : string) (value : Z) : string :=
  let imageName := suit +:+ padStart2 (pretty value) +:+ ".png" in
  "./assets/" +:+ imageName.

(** The body of the inner [for]: the card is pushed only when the glob has
    an image for it (a missing key and the empty string are both falsy).
    The pushed literal is a new object; it is the [length cards]-th object
    the effect has allocated. *)
Definition pushCard (cardImages : gmap string string) (suit : string)
    (cards : list Card) (i : Z) : list Card :=
  let value := i in
  let imagePath := imagePathOf suit value in
  match cardImages !! imagePath with
  | Some url =>
      if bool_decide (url ≠ "")
      then cards ++ [ {| oid := length cards; suit := suit; value := value; image := url |} ]
      else cards
  | None => cards
  end.

(** The array [cards] when the shuffle is about to start. *)
Definition generateCards (cardImages : gmap string string) : list Card :=
  foldl (λ cards suit, foldl (pushCard cardImages suit) cards (seqZ 1 13)) [] suits.

Definition mountEffect (cardImages : gmap string string) (st : AppState)
    (r : RandomSource) : AppState * RandomSource :=
  let cards := generateCards cardImages in
  let (shuffled, r') := shuffle cards r in
  ({| deck := shuffled;
      selectedCards := selectedCards st;
      reorderedCards := reorderedCards st;
      gamePhase := gamePhase st;
      isLoading := false;
      showHiddenCard := showHiddenCard st |}, r').

(** ** The session as a transition system *)

Inductive Event :=
| Mount (cardImages : gmap string string)
| Click (c : Card)
| Reorder
| Reset
| Toggle.

Definition step (e : Event) (st : AppState) (r : RandomSource) : AppState * RandomSource :=
  match e with
  | Mount cardImages => mountEffect cardImages st r
  | Click c => (handleCardClick st c, r)
  | Reorder => (handleReorder st, r)
  | Reset => handleReset st r
  | Toggle => (toggleReveal st, r)
  end.

(** States the component can be in after some sequence of events. *)
Inductive reachable : AppState → Prop :=
| reachable_init : reachable initialState
| reachable_step e st r :
    reachable st → reachable (fst (step e st r)).

(** ** Vocabulary of the statements *)

Section Orders.
Context {A : Type}.
Variable cmp : A → A → comparison.
Variable key : A → Z.

(** The comparator orders by [key] on the elements of the input. *)
Definition ordersBy (l : list A) : Prop :=
  ∀ a b, a ∈ l → b ∈ l → cmp a b = Lt ↔ key a < key b.

Definition ascending : relation A := λ a b, key a ≤ key b.
End Orders.

(** The comparator of both sorts, read on the cards themselves. *)
Definition cardCompare (a b : Card) : comparison :=
  signOf (numSub (getCardNumber a) (getCardNumber b)).

(** The four cards in ascending order of their ids, as both
    [getPermutationNumber] and [handleReorder] compute it. *)
Definition canonicalOrder (cards : list Card) : list Card :=
  sortPure cardCompare cards.

(** The identity id of a card whose suit is one of the four. *)
Definition cardKey (c : Card) : Z := default 0 (getCardNumber c).

(** Every card has an identity id: none of the numbers is [NaN]. *)
Definition idsDefined (cards : list Card) : Prop :=
  Forall (λ c, is_Some (getCardNumber c)) cards.

(** The identity ids are pairwise distinct. *)
Definition idsDistinct (cards : list Card) : Prop :=
  idsDefined cards ∧ NoDup (getCardNumber <$> cards).

Definition cardLt : relation Card := λ a b, cardKey a < cardKey b.

(** The index of a card in an array of cards, as [findIndex] with [===]
    finds it. *)
Definition positionOf (C : list Card) (c : Card) : Z :=
  findIndex (λ y, bool_decide (y = c)) C.

(** The positions a canonical order of four cards can hold. *)
Definition positions4 : list Z := [0; 1; 2; 3].

(** The number the Lehmer loop computes from [originalOrder]. *)
Definition rankOf (order : list Z) : Z := permNumber (lehmerLoop order).

(** The suit order of the specification: Spades < Clubs < Hearts < Diamonds. *)
Definition suitsInOrder : list string := ["spades"; "clubs"; "hearts"; "diamonds"].

(** The place of a suit in that order ([-1] for any other string). *)
Definition ordinal (s : string) : Z :=
  findIndex (λ x, bool_decide (x = s)) suitsInOrder.

(** A card of the 52-card universe. *)
Definition legalCard (c : Card) : Prop :=
  suit c ∈ suitsInOrder ∧ 1 ≤ value c ≤ 13.

(** The (suit, rank) pair with a given id. *)
Definition unidentify (id : Z) : string * Z :=
  (default "" (suitsInOrder !! Z.to_nat ((id - 1) / 13)), (id - 1) mod 13 + 1).

(** ** The scenario of the specification *)

Definition sevenOfDiamonds : Card :=
  {| oid := 0; suit := "diamonds"; value := 7; image := "/assets/diamonds07.png" |}.
Definition queenOfSpades : Card :=
  {| oid := 1; suit := "spades"; value := 12; image := "/assets/spades12.png" |}.
Definition threeOfClubs : Card :=
  {| oid := 2; suit := "clubs"; value := 3; image := "/assets/clubs03.png" |}.
Definition twoOfHearts : Card :=
  {| oid := 3; suit := "hearts"; value := 2; image := "/assets/hearts02.png" |}.
Definition aceOfSpades : Card :=
  {| oid := 4; suit := "spades"; value := 1; image := "/assets/spades01.png" |}.

(** The presentation order [O] of the scenario. *)
Definition scenarioOrder : list Card :=
  [sevenOfDiamonds; queenOfSpades; threeOfClubs; twoOfHearts].

(** ** Unrank *)

(** Modelled from the spec: [unrank] is not in the source.  The
    specification describes it as the inverse of the rank: divide [r - 1]
    by the descending factorials 3!, 2!, 1!, 0! to recover the counts, then
    take for each slot the [count]-th smallest canonical position not yet
    used, and read the canonical order at these positions.  A rank outside
    [1,24] is [OutOfRange], here [None]. *)
Definition unrankCounts (r : Z) : list Z :=
  (foldl (λ '(counts, rest) i,
            (counts ++ [rest / factorial (3 - i)], rest mod factorial (3 - i)))
         ([], r - 1) (seqZ 0 4)).1.

(** Modelled from the spec: the greedy selection of [unrank]; [unused]
    lists the positions not yet used, smallest first. *)
Fixpoint selectPositions (counts unused : list Z) : option (list Z) :=
  match counts with
  | [] => Some []
  | count :: counts' =>
      p ← unused !! Z.to_nat count;
      ps ← selectPositions counts' (delete (Z.to_nat count) unused);
      Some (p :: ps)
  end.

(** Modelled from the spec: the sequence [P] that [unrank] reconstructs. *)
Definition unrankPositions (r : Z) : option (list Z) :=
  selectPositions (unrankCounts r) positions4.

(** Modelled from the spec: [unrank(rank, canonicalOrder) -> order]. *)
Definition unrank (r : Z) (C : list Card) : option (list Card) :=
  if decide (1 ≤ r ≤ 24)
  then ps ← unrankPositions r; mapM (λ p, C !! Z.to_nat p) ps
  else None.

(** A canonical order: every card has an id and the ids strictly ascend. *)
Definition canonical (C : list Card) : Prop :=
  idsDefined C ∧ StronglySorted cardLt C.

(** The card is in the hand already, by suit and value. *)
Definition inHand (selected : list Card) (c0 : Card) : Prop :=
  ∃ c, c ∈ selected ∧ suit c = suit c0 ∧ value c = value c0.

(** The (suit, rank) pair of a card. *)
Definition pairOf (c : Card) : string * Z := (suit c, value c).

(** All pairs, suit outer and rank inner, in the order of the two loops. *)
Definition nestedPairs : list (string * Z) :=
  s ← suits; (λ i, (s, i)) <$> seqZ 1 13.

(** The glob has an image for the card. *)
Definition assetPresent (cardImages : gmap string string) (s : string) (i : Z) : bool :=
  match cardImages !! imagePathOf s i with
  | Some url => bool_decide (url ≠ "")
  | None => false
  end.


(** A glob with the 52 images. *)
Definition fullAssets : gmap string string :=
  list_to_map ((λ '(s, i), (imagePathOf s i, "/assets/" +:+ s +:+ pretty i +:+ ".png"))
                 <$> nestedPairs).

(** A hand of five, in the order of selection. *)
Definition scenarioHand : list Card :=
  [sevenOfDiamonds; queenOfSpades; threeOfClubs; twoOfHearts; aceOfSpades].

Definition scenarioState : AppState :=
  {| deck := scenarioHand; selectedCards := scenarioHand; reorderedCards := [];
     gamePhase := selection; isLoading := false; showHiddenCard := false |}.

(** ** What the component renders *)

(** One [div] of the deck grid: the card, whether the class [selected] is
    on it, whether the class [disabled] is on it.  Its [onClick] is
    [handleCardClick(card)] whatever the classes are. *)
Record DeckCell := mkCell {
  cellCard : Card;
  cellSelected : bool;
  cellDisabled : bool
}.

#[global] Instance DeckCell_eq_dec : EqDecision DeckCell.
Proof. solve_decision. Defined.

(** The element tree [App] returns, reduced to what depends on the state:
    - the loading screen;
    - the selection screen: the count of "Selected: n / 5", the preview
      with its number badges (absent for an empty hand), whether the
      "Reorder Cards" button is there, and the grid;
    - the reordered screen: the image shown in the face-down slot if there
      is one (the card back otherwise), the label of the toggle, and the
      row of four with its number badges. *)
Inductive View :=
| LoadingView
| SelectionView (selectedCount : nat) (preview : option (list (Card * Z)))
    (reorderButton : bool) (grid : list DeckCell)
| ReorderedView (faceUp : option Card) (toggleLabel : string)
    (fourCards : list (Card * Z)).

(** [cards.map((card, index) => ... index + 1 ...)] *)
Definition numbered (cards : list Card) : list (Card * Z) :=
  imap (λ index c, (c, Z.of_nat index + 1)) cards.

Definition renderCell (st : AppState) (c : Card) : DeckCell :=
  {| cellCard := c;
     cellSelected := alreadySelected (selectedCards st) c;
     cellDisabled := bool_decide (5 ≤ length (selectedCards st))%nat |}.

Definition render (st : AppState) : View :=
  if isLoading st then LoadingView
  else
    match gamePhase st with
    | selection =>
        SelectionView
          (length (selectedCards st))
          (if bool_decide (0 < length (selectedCards st))%nat
           then Some (numbered (selectedCards st)) else None)
          (bool_decide (length (selectedCards st) = 5%nat))
          (renderCell st <$> deck st)
    | reordered =>
        ReorderedView
          (if showHiddenCard st then reorderedCards st !! 0%nat else None)
          (if showHiddenCard st then "HIDE" else "SHOW")
          (numbered (drop 1 (reorderedCards st)))
    end.

(** The events a view lets the user raise: a click on a cell of the grid,
    the reorder button when it is there, and on the reordered screen the
    toggle and "Start Over". *)
Definition offers (v : View) (e : Event) : Prop :=
  match v, e with
  | SelectionView _ _ _ grid, Click c => c ∈ cellCard <$> grid
  | SelectionView _ _ reorderButton _, Reorder => reorderButton = true
  | ReorderedView _ _ _, Toggle => True
  | ReorderedView _ _ _, Reset => True
  | _, _ => False
  end.

(** The states of a session driven through the rendered page: the effect
    runs once on the initial state, then every event is one the current
    view offers. *)
Inductive uiReachable : AppState → Prop :=
| uiReachable_mount cardImages r :
    uiReachable (step (Mount cardImages) initialState r).1
| uiReachable_step e st r :
    uiReachable st → offers (render st) e → uiReachable (step e st r).1.

(** ** Orders on id sequences *)

(** Dictionary order on sequences of numbers. *)
Fixpoint lexLt (l k : list Z) : Prop :=
  match l, k with
  | x :: l', y :: k' => x < y ∨ (x = y ∧ lexLt l' k')
  | [], _ :: _ => True
  | _, [] => False
  end.

(** The cards whose suit is no key of [suitOrder]. *)
Definition unknownSuit (c : Card) : Prop := suit c ∉ suitsInOrder.

#[global] Instance lexLt_dec l k : Decision (lexLt l k).
Proof.
  revert k. induction l as [|x l IH]; intros [|y k]; cbn; apply _.
Defined.

(** ** Sample inputs *)

(** A generator that always returns 0. *)
Definition zeroRandom : RandomSource := {| outcomes := λ _, 0%Q; drawn := 0 |}.

(** Four cards whose suits are misspelt. *)
Definition misspeltHand : list Card :=
  [ {| oid := 0; suit := "club"; value := 3; image := "a" |};
    {| oid := 1; suit := "Spades"; value := 12; image := "b" |};
    {| oid := 2; suit := ""; value := 2; image := "c" |};
    {| oid := 3; suit := "heart"; value := 7; image := "d" |} ].

(** The state after the mount effect with all images. *)
Definition mountedState : AppState :=
  (step (Mount fullAssets) initialState zeroRandom).1.


(** The [k]-th card of the deck laid out by [mountedState]. *)
Definition deckCard (k : nat) : Card :=
  default aceOfSpades (deck mountedState !! k).

(** Events raised one after the other from a state. *)
Fixpoint runEvents (es : list Event) (st : AppState) (r : RandomSource) : AppState :=
  match es with
  | [] => st
  | e :: es' => runEvents es' (step e st r).1 (step e st r).2
  end.

(** Five cards picked from the laid out deck. *)
Definition pickedState : AppState :=
  runEvents [Click (deckCard 40); Click (deckCard 3); Click (deckCard 17);
             Click (deckCard 28); Click (deckCard 51)] mountedState zeroRandom.

(** ... and the reorder button pressed. *)
Definition playedState : AppState := (step Reorder pickedState zeroRandom).1.

(** Every event of the sequence is offered by the view it is raised on. *)
Fixpoint allOffered (es : list Event) (st : AppState) (r : RandomSource) : Prop :=
  match es with
  | [] => True
  | e :: es' =>
      offers (render st) e ∧ allOffered es' (step e st r).1 (step e st r).2
  end.

#[global] Instance offers_dec v e : Decision (offers v e).
Proof. destruct v, e; cbn; apply _. Defined.

#[global] Instance allOffered_dec es st r : Decision (allOffered es st r).
Proof. revert st r. induction es as [|e es IH]; intros st r; cbn; apply _. Defined.

(** The scenario's four cards in ascending and in descending id order. *)
Definition ascendingHand : list Card :=
  [queenOfSpades; threeOfClubs; twoOfHearts; sevenOfDiamonds].
Definition descendingHand : list Card :=
  [sevenOfDiamonds; twoOfHearts; threeOfClubs; queenOfSpades].

(** A loaded page with a deck of five cards and nothing selected. *)
Definition dealtState : AppState :=
  {| deck := scenarioHand; selectedCards := []; reorderedCards := [];
     gamePhase := selection; isLoading := false; showHiddenCard := false |}.

(** The scenario's hand picked in another order, with another fifth card. *)
Definition otherState : AppState :=
  {| deck := scenarioHand;
     selectedCards := [twoOfHearts; sevenOfDiamonds; queenOfSpades; threeOfClubs;
                       {| oid := 5; suit := "hearts"; value := 13;
                          image := "/assets/hearts13.png" |}];
     reorderedCards := [];
     gamePhase := selection; isLoading := false; showHiddenCard := false |}.

(** The two digits [padStart(2, '0')] gives the values 1 to 13. *)
Definition twoDigits : list string :=
  ["01"; "02"; "03"; "04"; "05"; "06"; "07"; "08"; "09"; "10"; "11"; "12"; "13"].

(** * Facts about the sort *)

Local Close Scope Z_scope.

Section SortFacts.
Context {A St : Type}.
Variable comparefn : A → A → St → comparison * St.

(** The loop [while (left < right)] of the binary search, one turn. *)
Lemma findInsertion_step arr pivot lo hi s :
  findInsertion comparefn arr pivot lo hi s
  = if decide (lo < hi)%nat then
      match arr !! (lo + (hi - lo) / 2)%nat with
      | Some x =>
          let (order, s1) := comparefn pivot x s in
          if negative order
          then findInsertion comparefn arr pivot lo (lo + (hi - lo) / 2) s1
          else findInsertion comparefn arr pivot (S (lo + (hi - lo) / 2)) hi s1
      | None => (lo, s)
      end
    else (lo, s).
Proof.
  funelim (findInsertion comparefn arr pivot lo hi s);
    repeat match goal with
           | H : decide _ = _ |- _ => rewrite H; clear H
           | H : _ !! _ = _ |- _ => rewrite H; clear H
           | H : comparefn _ _ _ = _ |- _ => rewrite H; clear H
           end; done.
Qed.

Lemma findInsertion_bounds arr pivot lo hi s :
  (lo ≤ hi)%nat →
  (lo ≤ (findInsertion comparefn arr pivot lo hi s).1 ≤ hi)%nat.
Proof.
  funelim (findInsertion comparefn arr pivot lo hi s); intros Hle;
    try (cbn; lia).
  all: assert ((hi - lo) / 2 < hi - lo)%nat by (apply Nat.div_lt; lia).
  all: match goal with
       | IH : (_ ≤ _)%nat → _ |- _ => specialize (IH ltac:(lia)); lia
       end.
Qed.

Lemma countAndMakeRun_perm arr s : (countAndMakeRun comparefn arr s).1.2 ≡ₚ arr.
Proof.
  destruct arr as [|a0 [|a1 rest]]; [done..|]. cbn [countAndMakeRun].
  destruct (comparefn a1 a0 s) as [order s1].
  destruct (extendRun comparefn (negative order) a1 rest s1) as [n s2].
  cbn [fst snd]. destruct (negative order); [|done].
  by rewrite reverse_Permutation, take_drop.
Qed.

Lemma insertPivot_perm arr start s : (insertPivot comparefn arr start s).1 ≡ₚ arr.
Proof.
  unfold insertPivot. destruct (arr !! start) as [pivot|] eqn:Hstart; [|done].
  pose proof (findInsertion_bounds arr pivot 0 start s ltac:(lia)) as [_ Hle].
  destruct (findInsertion comparefn arr pivot 0 start s) as [left s1].
  cbn [fst] in *.
  rewrite <- (take_drop start arr) at 4.
  rewrite (drop_S _ _ _ Hstart).
  rewrite <- (take_drop left (take start arr)) at 2.
  rewrite take_take, Nat.min_l by done.
  rewrite <- !app_assoc. f_equiv.
  by rewrite <- Permutation_middle.
Qed.

Lemma binaryInsertionSort_perm arr start count s :
  (binaryInsertionSort comparefn arr start count s).1 ≡ₚ arr.
Proof.
  revert arr start s. induction count as [|count IH]; intros arr start s; [done|].
  cbn [binaryInsertionSort].
  pose proof (insertPivot_perm arr start s) as Hins.
  destruct (insertPivot comparefn arr start s) as [arr' s1]. cbn [fst] in Hins.
  by rewrite IH.
Qed.

(** Whatever the comparator answers, and in whatever state it starts,
    [sort] only rearranges its input. *)
Lemma sort_perm l s : (sort comparefn l s).1 ≡ₚ l.
Proof.
  unfold sort. case_decide; [done|].
  pose proof (countAndMakeRun_perm l s) as Hrun.
  destruct (countAndMakeRun comparefn l s) as [[runLength arr] s1].
  cbn [fst snd] in Hrun. by rewrite binaryInsertionSort_perm.
Qed.
End SortFacts.

Lemma sortPure_perm {A} (cmp : A → A → comparison) l : sortPure cmp l ≡ₚ l.
Proof. apply sort_perm. Qed.

Section SortAscending.
Context {A : Type}.
Variable cmp : A → A → comparison.
Variable key : A → Z.

Local Open Scope Z_scope.

#[local] Instance ascending_trans : Transitive (ascending key).
Proof. intros a b c. unfold ascending. lia. Qed.

Lemma ordersBy_perm l l' : l ≡ₚ l' → ordersBy cmp key l → ordersBy cmp key l'.
Proof. intros Hperm Hord a b Ha Hb. apply Hord; by rewrite Hperm. Qed.

Lemma StronglySorted_lookup_after (R : relation A) l i x :
  StronglySorted R l → l !! i = Some x → Forall (R x) (drop (S i) l).
Proof.
  intros Hss. revert i. induction Hss as [|y l Hss IH Hall]; intros i Hi; [done|].
  destruct i as [|i]; simplify_eq/=; [by rewrite drop_0|]. by apply IH.
Qed.

Lemma StronglySorted_lookup_before (R : relation A) l i x :
  StronglySorted R l → l !! i = Some x → Forall (λ y, R y x) (take i l).
Proof.
  intros Hss Hi. rewrite <- (take_drop_middle l i x Hi) in Hss.
  apply StronglySorted_app in Hss as (Hcross & _ & _).
  apply Forall_forall. intros y Hy. apply Hcross; [done|by left].
Qed.

(** The run found at the start of the array, not descending ... *)
Lemma extendRun_ascending prev rest s :
  ordersBy cmp key (prev :: rest) →
  ((extendRun (stateless cmp) false prev rest s).1 ≤ length rest)%nat ∧
  Sorted (ascending key)
         (prev :: take (extendRun (stateless cmp) false prev rest s).1 rest).
Proof.
  revert prev. induction rest as [|x rest IH]; intros prev Hord.
  - cbn. split; [lia|]. by repeat constructor.
  - cbn [extendRun]. change (stateless cmp x prev s) with (cmp x prev, s).
    cbv beta iota zeta.
    destruct (negative (cmp x prev)) eqn:Hneg.
    + cbn. split; [lia|]. by repeat constructor.
    + destruct (IH x) as [Hlen Hsorted].
      { intros a b Ha Hb. apply Hord; by right. }
      destruct (extendRun (stateless cmp) false x rest s) as [n s2].
      cbn [fst length take] in *. split; [lia|].
      constructor; [done|]. constructor. unfold ascending.
      assert (¬ key x < key prev); [|lia].
      intros Hlt. apply Hord in Hlt; [|by right; left|by left].
      by rewrite Hlt in Hneg.
Qed.

(** ... or strictly descending. *)
Lemma extendRun_descending prev rest s :
  ordersBy cmp key (prev :: rest) →
  ((extendRun (stateless cmp) true prev rest s).1 ≤ length rest)%nat ∧
  Sorted (flip (ascending key))
         (prev :: take (extendRun (stateless cmp) true prev rest s).1 rest).
Proof.
  revert prev. induction rest as [|x rest IH]; intros prev Hord.
  - cbn. split; [lia|]. by repeat constructor.
  - cbn [extendRun]. change (stateless cmp x prev s) with (cmp x prev, s).
    cbv beta iota zeta.
    destruct (negative (cmp x prev)) eqn:Hneg; cbn [negb].
    + destruct (IH x) as [Hlen Hsorted].
      { intros a b Ha Hb. apply Hord; by right. }
      destruct (extendRun (stateless cmp) true x rest s) as [n s2].
      cbn [fst length take] in *. split; [lia|].
      constructor; [done|]. constructor. unfold flip, ascending.
      assert (key x < key prev); [|lia].
      apply Hord; [by right; left|by left|]. by destruct (cmp x prev).
    + cbn. split; [lia|]. by repeat constructor.
Qed.

Lemma countAndMakeRun_ascending arr s :
  ordersBy cmp key arr →
  ((countAndMakeRun (stateless cmp) arr s).1.1 ≤ length arr)%nat ∧
  ((2 ≤ length arr)%nat → (2 ≤ (countAndMakeRun (stateless cmp) arr s).1.1)%nat) ∧
  length (countAndMakeRun (stateless cmp) arr s).1.2 = length arr ∧
  StronglySorted (ascending key)
    (take (countAndMakeRun (stateless cmp) arr s).1.1
          (countAndMakeRun (stateless cmp) arr s).1.2).
Proof.
  intros Hord. destruct arr as [|a0 [|a1 rest]].
  - cbn. repeat split; try lia. constructor.
  - cbn. repeat split; try lia. by repeat constructor.
  - cbn [countAndMakeRun]. change (stateless cmp a1 a0 s) with (cmp a1 a0, s).
    cbv beta iota zeta.
    assert (Hord' : ordersBy cmp key (a1 :: rest))
      by (intros a b Ha Hb; apply Hord; by right).
    destruct (negative (cmp a1 a0)) eqn:Hneg.
    + destruct (extendRun_descending a1 rest s Hord') as [Hlen Hsorted].
      destruct (extendRun (stateless cmp) true a1 rest s) as [n s2].
      cbn [fst snd length] in *.
      split; [lia|]. split; [lia|]. split.
      { rewrite length_app, length_reverse, length_take, length_drop. cbn. lia. }
      rewrite take_app_length' by (rewrite length_reverse, length_take; cbn; lia).
      apply Sorted_StronglySorted; [apply _|].
      cbn [take]. apply (Sorted_reverse (flip (ascending key))).
      constructor; [done|]. constructor. unfold flip, ascending.
      assert (key a1 < key a0); [|lia].
      apply Hord; [by right; left|by left|]. by destruct (cmp a1 a0).
    + destruct (extendRun_ascending a1 rest s Hord') as [Hlen Hsorted].
      destruct (extendRun (stateless cmp) false a1 rest s) as [n s2].
      cbn [fst snd length] in *.
      split; [lia|]. split; [lia|]. split; [done|].
      apply Sorted_StronglySorted; [apply _|].
      cbn [take]. constructor; [done|]. constructor. unfold ascending.
      assert (¬ key a1 < key a0); [|lia].
      intros Hlt. apply Hord in Hlt; [|by right; left|by left].
      by rewrite Hlt in Hneg.
Qed.

(** The binary search: everything left of the result is at most the pivot,
    everything from it to [start] is greater. *)
Lemma findInsertion_split arr pivot start lo hi s :
  ordersBy cmp key arr → pivot ∈ arr →
  StronglySorted (ascending key) (take start arr) →
  (lo ≤ hi ≤ start)%nat → (start ≤ length arr)%nat →
  Forall (λ x, key x ≤ key pivot) (take lo arr) →
  Forall (λ x, key pivot < key x) (drop hi (take start arr)) →
  Forall (λ x, key x ≤ key pivot)
         (take (findInsertion (stateless cmp) arr pivot lo hi s).1 arr) ∧
  Forall (λ x, key pivot < key x)
         (drop (findInsertion (stateless cmp) arr pivot lo hi s).1 (take start arr)).
Proof.
  intros Hord Hpivot Hss.
  remember (hi - lo)%nat as m eqn:Hm. revert lo hi s Hm.
  induction m as [m IH] using lt_wf_ind. intros lo hi s -> Hbounds Hstart Hlo Hhi.
  rewrite findInsertion_step.
  destruct (decide (lo < hi)%nat) as [Hlt|Hge].
  2: { cbn [fst]. split; [done|]. by replace lo with hi by lia. }
  assert (Hdiv : ((hi - lo) / 2 < hi - lo)%nat) by (apply Nat.div_lt; lia).
  set (mid := (lo + (hi - lo) / 2)%nat) in *.
  assert (Hmid : (lo ≤ mid < hi)%nat) by (unfold mid; lia).
  destruct (lookup_lt_is_Some_2 arr mid ltac:(lia)) as [x Hx]. rewrite Hx.
  assert (Hx' : take start arr !! mid = Some x)
    by (rewrite lookup_take_lt by lia; done).
  assert (Hxin : x ∈ arr) by (by eapply list_elem_of_lookup_2).
  change (stateless cmp pivot x s) with (cmp pivot x, s). cbv beta iota zeta.
  destruct (negative (cmp pivot x)) eqn:Hneg.
  - apply (IH (mid - lo)%nat); [lia|done|lia|done|done|].
    assert (Hpx : key pivot < key x)
      by (apply Hord; [done..|]; by destruct (cmp pivot x)).
    rewrite (drop_S _ _ _ Hx'). constructor; [done|].
    eapply Forall_impl; [by apply (StronglySorted_lookup_after _ _ _ _ Hss Hx')|].
    unfold ascending. cbn. intros; lia.
  - apply (IH (hi - S mid)%nat); [lia|done|lia|done| |done].
    assert (Hxp : key x ≤ key pivot).
    { assert (¬ key pivot < key x); [|lia].
      intros Hlt'. apply Hord in Hlt'; [|done..]. by rewrite Hlt' in Hneg. }
    rewrite (take_S_r _ _ _ Hx). apply Forall_app. split; [|by repeat constructor].
    replace (take mid arr) with (take mid (take start arr))
      by (rewrite take_take; f_equal; lia).
    eapply Forall_impl; [by apply (StronglySorted_lookup_before _ _ _ _ Hss Hx')|].
    unfold ascending. cbn. intros; lia.
Qed.

Lemma insertPivot_ascending arr start s :
  ordersBy cmp key arr → (start < length arr)%nat →
  StronglySorted (ascending key) (take start arr) →
  StronglySorted (ascending key)
                 (take (S start) (insertPivot (stateless cmp) arr start s).1).
Proof.
  intros Hord Hstart Hss. unfold insertPivot.
  destruct (lookup_lt_is_Some_2 arr start Hstart) as [pivot Hpivot].
  rewrite Hpivot.
  pose proof (findInsertion_bounds (stateless cmp) arr pivot 0 start s ltac:(lia))
    as [_ Hle].
  destruct (findInsertion_split arr pivot start 0 start s) as [Hbefore Hafter];
    try done.
  { by eapply list_elem_of_lookup_2. }
  { lia. }
  { lia. }
  { rewrite drop_ge by (rewrite length_take; lia). constructor. }
  destruct (findInsertion (stateless cmp) arr pivot 0 start s) as [left s1].
  cbn [fst] in *.
  rewrite <- (take_drop left (take start arr)) in Hss.
  rewrite take_take, Nat.min_l in Hss by done.
  apply StronglySorted_app in Hss as (Hcross & Hss1 & Hss2).
  replace (take left arr ++ pivot :: drop left (take start arr) ++ drop (S start) arr)
    with ((take left arr ++ pivot :: drop left (take start arr)) ++ drop (S start) arr)
    by (by rewrite <- app_assoc).
  rewrite take_app_length'.
  2: { rewrite length_app. cbn. rewrite length_take, length_drop, length_take. lia. }
  apply StronglySorted_app_2; [|done|].
  - intros a b Ha Hb. apply elem_of_cons in Hb as [->|Hb].
    + rewrite Forall_forall in Hbefore. by apply Hbefore.
    + rewrite Forall_forall in Hbefore, Hafter. unfold ascending.
      specialize (Hbefore a Ha). specialize (Hafter b Hb). cbn in *. lia.
  - constructor; [done|]. eapply Forall_impl; [exact Hafter|].
    unfold ascending. cbn. intros; lia.
Qed.

Lemma insertPivot_length arr start s :
  length (insertPivot (stateless cmp) arr start s).1 = length arr.
Proof. apply Permutation_length, (insertPivot_perm (stateless cmp)). Qed.

Lemma binaryInsertionSort_ascending arr start count s :
  ordersBy cmp key arr → (start + count = length arr)%nat →
  StronglySorted (ascending key) (take start arr) →
  StronglySorted (ascending key)
                 (binaryInsertionSort (stateless cmp) arr start count s).1.
Proof.
  revert arr start s. induction count as [|count IH]; intros arr start s Hord Hlen Hss.
  - cbn. by rewrite take_ge in Hss by lia.
  - cbn [binaryInsertionSort].
    pose proof (insertPivot_ascending arr start s Hord ltac:(lia) Hss) as Hss'.
    pose proof (insertPivot_perm (stateless cmp) arr start s) as Hperm.
    destruct (insertPivot (stateless cmp) arr start s) as [arr' s1].
    cbn [fst] in *. apply IH; [|rewrite Hperm; lia|done].
    eapply ordersBy_perm; [symmetry|]; done.
Qed.

(** With a comparator that orders by [key], the result is ascending. *)
Lemma sortPure_ascending l :
  ordersBy cmp key l → StronglySorted (ascending key) (sortPure cmp l).
Proof.
  intros Hord. unfold sortPure, sort. case_decide as Hlen.
  - destruct l as [|a [|b l]]; cbn in *; [constructor|by repeat constructor|lia].
  - destruct (countAndMakeRun_ascending l () Hord) as (Hle & Hge & Hlen' & Hss).
    pose proof (countAndMakeRun_perm (stateless cmp) l ()) as Hperm.
    destruct (countAndMakeRun (stateless cmp) l ()) as [[runLength arr] s1].
    cbn [fst snd] in *.
    apply binaryInsertionSort_ascending; [|lia|done].
    eapply ordersBy_perm; [symmetry|]; done.
Qed.
End SortAscending.

Section SortRelated.
Context {A B St : Type}.
Variable R : A → B → Prop.
Variable cmpA : A → A → St → comparison * St.
Variable cmpB : B → B → St → comparison * St.
Hypothesis cmp_related :
  ∀ a a' b b' s, R a b → R a' b' → cmpA a a' s = cmpB b b' s.

Lemma extendRun_related isDescending prev prev' rest rest' s :
  R prev prev' → Forall2 R rest rest' →
  extendRun cmpA isDescending prev rest s
  = extendRun cmpB isDescending prev' rest' s.
Proof.
  intros Hprev Hrest. revert prev prev' s Hprev.
  induction Hrest as [|x x' rest rest' Hx Hrest IH]; intros prev prev' s Hprev;
    [done|].
  cbn [extendRun]. rewrite (cmp_related x prev x' prev' s Hx Hprev).
  destruct (cmpB x' prev' s) as [order s1]. by rewrite (IH x x' s1 Hx).
Qed.

Lemma countAndMakeRun_related arr arr' s :
  Forall2 R arr arr' →
  (countAndMakeRun cmpA arr s).1.1 = (countAndMakeRun cmpB arr' s).1.1 ∧
  Forall2 R (countAndMakeRun cmpA arr s).1.2 (countAndMakeRun cmpB arr' s).1.2 ∧
  (countAndMakeRun cmpA arr s).2 = (countAndMakeRun cmpB arr' s).2.
Proof.
  intros Harr. pose proof Harr as Hall.
  destruct Harr as [|a0 b0 ? ? H0 [|a1 b1 rest rest' H1 Hrest]]; [done..|].
  cbn [countAndMakeRun]. rewrite (cmp_related a1 a0 b1 b0 s H1 H0).
  destruct (cmpB b1 b0 s) as [order s1].
  rewrite (extendRun_related _ a1 b1 rest rest' s1 H1 Hrest).
  destruct (extendRun cmpB (negative order) b1 rest' s1) as [n s2].
  cbn [fst snd]. split; [done|]. split; [|done].
  destruct (negative order); [|done].
  apply Forall2_app; [apply Forall2_reverse, Forall2_take|apply Forall2_drop]; done.
Qed.

Lemma findInsertion_related arr arr' pivot pivot' lo hi s :
  R pivot pivot' → Forall2 R arr arr' →
  findInsertion cmpA arr pivot lo hi s = findInsertion cmpB arr' pivot' lo hi s.
Proof.
  intros Hpivot Harr.
  remember (hi - lo)%nat as m eqn:Hm. revert lo hi s Hm.
  induction m as [m IH] using lt_wf_ind. intros lo hi s ->.
  rewrite (findInsertion_step cmpA), (findInsertion_step cmpB).
  destruct (decide (lo < hi)%nat) as [Hlt|]; [|done].
  assert ((hi - lo) / 2 < hi - lo)%nat by (apply Nat.div_lt; lia).
  destruct (arr !! (lo + (hi - lo) / 2)%nat) as [x|] eqn:Hx.
  - destruct (Forall2_lookup_l _ _ _ _ _ Harr Hx) as (y & -> & Hxy).
    rewrite (cmp_related pivot x pivot' y s Hpivot Hxy).
    destruct (cmpB pivot' y s) as [order s1].
    destruct (negative order); (eapply IH; [|reflexivity]; lia).
  - apply lookup_ge_None in Hx. rewrite (Forall2_length _ _ _ Harr) in Hx.
    apply lookup_ge_None in Hx. by rewrite Hx.
Qed.

Lemma insertPivot_related arr arr' start s :
  Forall2 R arr arr' →
  Forall2 R (insertPivot cmpA arr start s).1 (insertPivot cmpB arr' start s).1 ∧
  (insertPivot cmpA arr start s).2 = (insertPivot cmpB arr' start s).2.
Proof.
  intros Harr. unfold insertPivot.
  destruct (arr !! start) as [pivot|] eqn:Hstart.
  - destruct (Forall2_lookup_l _ _ _ _ _ Harr Hstart) as (pivot' & -> & Hpivot).
    rewrite (findInsertion_related arr arr' pivot pivot' 0 start s Hpivot Harr).
    destruct (findInsertion cmpB arr' pivot' 0 start s) as [left s1].
    cbn [fst snd]. split; [|done].
    apply Forall2_app; [by apply Forall2_take|].
    constructor; [done|].
    apply Forall2_app; [by apply Forall2_drop, Forall2_take|by apply Forall2_drop].
  - apply lookup_ge_None in Hstart. rewrite (Forall2_length _ _ _ Harr) in Hstart.
    apply lookup_ge_None in Hstart. by rewrite Hstart.
Qed.

Lemma binaryInsertionSort_related arr arr' start count s :
  Forall2 R arr arr' →
  Forall2 R (binaryInsertionSort cmpA arr start count s).1
            (binaryInsertionSort cmpB arr' start count s).1 ∧
  (binaryInsertionSort cmpA arr start count s).2
  = (binaryInsertionSort cmpB arr' start count s).2.
Proof.
  revert arr arr' start s.
  induction count as [|count IH]; intros arr arr' start s Harr; [done|].
  cbn [binaryInsertionSort].
  destruct (insertPivot_related arr arr' start s Harr) as [Harr1 Hs1].
  destruct (insertPivot cmpA arr start s) as [arr1 s1].
  destruct (insertPivot cmpB arr' start s) as [arr1' s1'].
  cbn [fst snd] in *. subst s1'. by apply IH.
Qed.

(** Related inputs, sorted by comparators that agree on related
    elements, give related outputs. *)
Lemma sort_related l l' s :
  Forall2 R l l' →
  Forall2 R (sort cmpA l s).1 (sort cmpB l' s).1 ∧
  (sort cmpA l s).2 = (sort cmpB l' s).2.
Proof.
  intros Hl. unfold sort. rewrite <- (Forall2_length _ _ _ Hl).
  case_decide; [done|].
  destruct (countAndMakeRun_related l l' s Hl) as (Hrun & Harr & Hs).
  destruct (countAndMakeRun cmpA l s) as [[runLength arr] s1].
  destruct (countAndMakeRun cmpB l' s) as [[runLength' arr'] s1'].
  cbn [fst snd] in *. subst. by apply binaryInsertionSort_related.
Qed.
End SortRelated.

(** Sorting commutes with a projection the comparators agree on. *)
Lemma sortPure_fmap {A B} (f : A → B) (cmpA : A → A → comparison)
    (cmpB : B → B → comparison) (l : list A) :
  (∀ a b, a ∈ l → b ∈ l → cmpB (f a) (f b) = cmpA a b) →
  f <$> sortPure cmpA l = sortPure cmpB (f <$> l).
Proof.
  intros Hcmp. unfold sortPure.
  destruct (sort_related (λ a b, a ∈ l ∧ b = f a)
              (stateless cmpA) (stateless cmpB)) with (l := l) (l' := f <$> l) (s := ())
    as [Hrel _].
  - intros a a' b b' s [Ha ->] [Ha' ->]. unfold stateless. by rewrite Hcmp.
  - apply Forall2_fmap_r, Forall_Forall2_diag, Forall_forall. by intros a Ha.
  - apply list_eq_Forall2, Forall2_fmap_l.
    eapply Forall2_impl; [exact Hrel|]. by intros a b [_ ->].
Qed.

Section SortInOrder.
Context {A : Type}.
Variable cmp : A → A → comparison.

Lemma extendRun_in_order prev rest s :
  Sorted (λ y x, cmp x y ≠ Lt) (prev :: rest) →
  extendRun (stateless cmp) false prev rest s = (length rest, s).
Proof.
  revert prev. induction rest as [|x rest IH]; intros prev Hsorted; [done|].
  apply Sorted_inv in Hsorted as [Hsorted Hhd]. apply HdRel_inv in Hhd.
  cbn [extendRun]. change (stateless cmp x prev s) with (cmp x prev, s).
  cbn [length]. rewrite (IH x Hsorted).
  by destruct (cmp x prev).
Qed.

(** When no element compares less than its predecessor, the sort returns
    its input. *)
Lemma sortPure_in_order l :
  Sorted (λ y x, cmp x y ≠ Lt) l → sortPure cmp l = l.
Proof.
  intros Hsorted. unfold sortPure, sort. case_decide; [done|].
  destruct l as [|a0 [|a1 rest]]; [done..|].
  apply Sorted_inv in Hsorted as [Hsorted Hhd]. apply HdRel_inv in Hhd.
  cbn [countAndMakeRun]. change (stateless cmp a1 a0 ()) with (cmp a1 a0, ()).
  cbv beta iota zeta.
  assert (Hneg : negative (cmp a1 a0) = false) by (by destruct (cmp a1 a0)).
  rewrite Hneg, (extendRun_in_order a1 rest () Hsorted).
  cbn [length]. by rewrite Nat.sub_diag.
Qed.
End SortInOrder.

Local Open Scope Z_scope.

(** * The canonical order of a hand *)

#[global] Instance cardLt_antisymm : AntiSymm (=) cardLt.
Proof. intros a b. unfold cardLt. lia. Qed.

Lemma card_cardDataOf cards : card <$> cardDataOf cards = cards.
Proof.
  unfold cardDataOf. rewrite fmap_imap.
  rewrite (imap_ext _ (λ _ c, c)) by done.
  induction cards as [|c cards IH]; [done|]. cbn. f_equal.
  rewrite <- IH at 2. by apply imap_ext.
Qed.

Lemma number_cardDataOf cards a :
  a ∈ cardDataOf cards → number a = getCardNumber (card a).
Proof.
  unfold cardDataOf. intros Ha. apply list_elem_of_lookup in Ha as [i Hi].
  rewrite list_lookup_imap in Hi.
  destruct (cards !! i); simplify_eq/=. done.
Qed.

Lemma sortedData_canonical cards :
  card <$> sortedData cards = canonicalOrder cards.
Proof.
  unfold sortedData, canonicalOrder.
  rewrite <- (card_cardDataOf cards) at 2.
  apply sortPure_fmap. intros a b Ha Hb. unfold cardCompare, compareNumber.
  by rewrite (number_cardDataOf cards a), (number_cardDataOf cards b).
Qed.

Lemma sortedCardsOf_canonical cards :
  sortedCardsOf cards = canonicalOrder cards.
Proof.
  unfold sortedCardsOf, canonicalOrder.
  rewrite (sortPure_fmap cn_card _ cardCompare).
  - by rewrite <- list_fmap_compose, list_fmap_id.
  - intros a b Ha Hb.
    apply list_elem_of_fmap in Ha as [ca [-> _]].
    apply list_elem_of_fmap in Hb as [cb [-> _]]. done.
Qed.

Lemma canonicalOrder_perm cards : canonicalOrder cards ≡ₚ cards.
Proof. apply sortPure_perm. Qed.

Lemma cardCompare_ordersBy cards :
  idsDefined cards → ordersBy cardCompare cardKey cards.
Proof.
  intros Hdef a b Ha Hb. unfold idsDefined in Hdef. rewrite Forall_forall in Hdef.
  destruct (Hdef a Ha) as [x Hx], (Hdef b Hb) as [y Hy].
  unfold cardCompare, cardKey. rewrite Hx, Hy. cbn.
  rewrite Z.compare_lt_iff. lia.
Qed.

(** The canonical order is ascending in the identity ids. *)
Lemma canonicalOrder_ascending cards :
  idsDefined cards → StronglySorted (ascending cardKey) (canonicalOrder cards).
Proof. intros Hdef. by apply sortPure_ascending, cardCompare_ordersBy. Qed.

Lemma idsDistinct_perm cards cards' :
  cards ≡ₚ cards' → idsDistinct cards → idsDistinct cards'.
Proof.
  intros Hperm [Hdef Hnodup]. split.
  - unfold idsDefined. by rewrite <- Hperm.
  - by rewrite <- Hperm.
Qed.

Lemma idsDistinct_NoDup cards : idsDistinct cards → NoDup cards.
Proof. intros [_ Hnodup]. by apply NoDup_fmap_1 in Hnodup. Qed.

Lemma NoDup_fmap_eq {A B} (f : A → B) (l : list A) a b :
  NoDup (f <$> l) → a ∈ l → b ∈ l → f a = f b → a = b.
Proof.
  induction l as [|x l IH]; intros Hnodup Ha Hb Hf; [by apply elem_of_nil in Ha|].
  rewrite fmap_cons in Hnodup. apply NoDup_cons in Hnodup as [Hx Hnodup].
  apply elem_of_cons in Ha as [->|Ha], Hb as [->|Hb]; [done| | |by apply IH].
  - exfalso. apply Hx. rewrite Hf. by apply list_elem_of_fmap_2.
  - exfalso. apply Hx. rewrite <- Hf. by apply list_elem_of_fmap_2.
Qed.

Lemma idsDistinct_keys cards : idsDistinct cards → NoDup (cardKey <$> cards).
Proof.
  intros [Hdef Hnodup]. unfold idsDefined in Hdef. rewrite Forall_forall in Hdef.
  apply NoDup_fmap_2_strong; [|by apply NoDup_fmap_1 in Hnodup].
  intros a b Ha Hb Hkey.
  destruct (Hdef a Ha) as [x Hx], (Hdef b Hb) as [y Hy].
  unfold cardKey in Hkey. rewrite Hx, Hy in Hkey. cbn in Hkey. subst y.
  apply (NoDup_fmap_eq getCardNumber cards); try done. congruence.
Qed.

Lemma ascending_strict {A} (key : A → Z) (l : list A) :
  StronglySorted (ascending key) l → NoDup (key <$> l) →
  StronglySorted (λ a b, key a < key b) l.
Proof.
  induction 1 as [|x l Hss IH Hall]; intros Hnodup; [constructor|].
  rewrite fmap_cons in Hnodup. apply NoDup_cons in Hnodup as [Hx Hnodup].
  constructor; [by apply IH|].
  rewrite Forall_forall in *. intros y Hy.
  assert (key x ≠ key y).
  { intros Heq. apply Hx. rewrite Heq. by apply list_elem_of_fmap_2. }
  specialize (Hall y Hy). unfold ascending in Hall. lia.
Qed.

(** With distinct ids the canonical order is strictly ascending. *)
Lemma canonicalOrder_strict cards :
  idsDistinct cards → StronglySorted cardLt (canonicalOrder cards).
Proof.
  intros Hd. apply (ascending_strict cardKey).
  - apply canonicalOrder_ascending, Hd.
  - apply idsDistinct_keys. eapply idsDistinct_perm; [|exact Hd].
    symmetry. apply canonicalOrder_perm.
Qed.

(** ... and it is the only strictly ascending arrangement of the cards. *)
Lemma canonicalOrder_unique C cards :
  StronglySorted cardLt C → cards ≡ₚ C → idsDistinct cards →
  canonicalOrder cards = C.
Proof.
  intros HC Hperm Hd. apply (StronglySorted_unique cardLt); [|done|].
  - by apply canonicalOrder_strict.
  - by rewrite canonicalOrder_perm.
Qed.

(** * Positions in the canonical order *)

Lemma findIndexFrom_fmap {A B} (f : A → B) (p : B → bool) l i :
  findIndexFrom p (f <$> l) i = findIndexFrom (λ x, p (f x)) l i.
Proof.
  revert i. induction l as [|x l IH]; intros i; [done|].
  cbn. destruct (p (f x)); [done|]. apply IH.
Qed.

Lemma originalOrderOf_positions cards :
  originalOrderOf cards = positionOf (canonicalOrder cards) <$> cards.
Proof.
  unfold originalOrderOf, positionOf, findIndex.
  rewrite <- sortedData_canonical.
  apply list_fmap_ext. intros _ c _. by rewrite findIndexFrom_fmap.
Qed.

Lemma findIndexFrom_lookup (C : list Card) k c i :
  NoDup C → C !! k = Some c →
  findIndexFrom (λ y, bool_decide (y = c)) C i = i + Z.of_nat k.
Proof.
  revert k i. induction C as [|y C IH]; intros k i Hnodup Hk; [done|].
  apply NoDup_cons in Hnodup as [Hy Hnodup]. cbn.
  destruct k as [|k]; simplify_eq/=.
  - rewrite bool_decide_eq_true_2 by done. lia.
  - rewrite bool_decide_eq_false_2.
    + rewrite (IH k) by done. lia.
    + intros ->. apply Hy. by eapply list_elem_of_lookup_2.
Qed.

Lemma positionOf_lookup C k c :
  NoDup C → C !! k = Some c → positionOf C c = Z.of_nat k.
Proof. intros. unfold positionOf, findIndex. by rewrite (findIndexFrom_lookup C k). Qed.

Lemma lookup_positionOf C c :
  NoDup C → c ∈ C → C !! Z.to_nat (positionOf C c) = Some c.
Proof.
  intros Hnodup Hc. apply list_elem_of_lookup in Hc as [k Hk].
  by rewrite (positionOf_lookup C k c), Nat2Z.id.
Qed.

Lemma positions_self C :
  NoDup C → positionOf C <$> C = Z.of_nat <$> seq 0 (length C).
Proof.
  intros Hnodup. apply list_eq. intros i. rewrite !list_lookup_fmap.
  destruct (C !! i) as [c|] eqn:Hi; cbn.
  - rewrite (positionOf_lookup C i c) by done.
    rewrite lookup_seq_lt by (by eapply lookup_lt_Some). done.
  - rewrite lookup_seq_ge by (by apply lookup_ge_None). done.
Qed.

Lemma positions_perm C cards :
  NoDup C → length C = 4%nat → cards ≡ₚ C →
  positionOf C <$> cards ≡ₚ positions4.
Proof.
  intros Hnodup Hlen Hperm. rewrite Hperm, positions_self by done.
  by rewrite Hlen.
Qed.

(** Reading the canonical order at the positions gives the cards back. *)
Lemma lookup_positions C cards :
  NoDup C → cards ≡ₚ C →
  (λ p, C !! Z.to_nat p) <$> (positionOf C <$> cards) = Some <$> cards.
Proof.
  intros Hnodup Hperm. rewrite <- list_fmap_compose.
  apply list_fmap_ext. intros i c Hc. cbn.
  apply lookup_positionOf; [done|].
  rewrite <- Hperm. by eapply list_elem_of_lookup_2.
Qed.

(** * The Lehmer loop on the 24 arrangements of the positions *)

(** The recursion of the source: [if (n <= 1) return 1; return n * factorial(n - 1)]. *)
Lemma factorial_recursion n :
  factorial n = if decide (n ≤ 1) then 1 else n * factorial (n - 1).
Proof. rewrite factorial_equation_1. by destruct (decide (n ≤ 1)). Qed.

Lemma factorial_small :
  factorial 0 = 1 ∧ factorial 1 = 1 ∧ factorial 2 = 2 ∧ factorial 3 = 6.
Proof. repeat split; vm_compute; reflexivity. Qed.

(** The comment of the source: ABCD (0,1,2,3) = 1, DCBA (3,2,1,0) = 24. *)
Lemma rankOf_extremes : rankOf [0; 1; 2; 3] = 1 ∧ rankOf [3; 2; 1; 0] = 24.
Proof. split; vm_compute; reflexivity. Qed.

Lemma rankOf_range p : p ≡ₚ positions4 → 1 ≤ rankOf p ≤ 24.
Proof.
  intros Hp. symmetry in Hp. apply permutations_Permutation in Hp.
  revert p Hp. apply Forall_forall.
  apply (bool_decide_unpack _). vm_compute. reflexivity.
Qed.

Lemma rankOf_inj p q :
  p ≡ₚ positions4 → q ≡ₚ positions4 → rankOf p = rankOf q → p = q.
Proof.
  intros Hp Hq. symmetry in Hp, Hq.
  apply permutations_Permutation in Hp, Hq.
  assert (Hall : Forall (λ p, Forall (λ q, rankOf p = rankOf q → p = q)
                                    (permutations positions4))
                        (permutations positions4))
    by (apply (bool_decide_unpack _); vm_compute; reflexivity).
  rewrite Forall_forall in Hall. specialize (Hall p Hp).
  rewrite Forall_forall in Hall. exact (Hall q Hq).
Qed.

Lemma getPermutationNumber_rankOf cards :
  length cards = 4%nat →
  getPermutationNumber cards
  = rankOf (positionOf (canonicalOrder cards) <$> cards).
Proof.
  intros Hlen. unfold getPermutationNumber.
  rewrite decide_False by (intros Hne; by apply Hne).
  by rewrite originalOrderOf_positions.
Qed.

Lemma originalOrder_perm cards :
  length cards = 4%nat → idsDistinct cards →
  positionOf (canonicalOrder cards) <$> cards ≡ₚ positions4.
Proof.
  intros Hlen Hd. apply positions_perm.
  - rewrite canonicalOrder_perm. by apply idsDistinct_NoDup.
  - by rewrite canonicalOrder_perm.
  - by rewrite canonicalOrder_perm.
Qed.

(** * The permutation rank *)

(** C1.  For four cards with pairwise distinct identity ids the permutation
    rank lies in [1,24], and among the orderings of the same four cards no
    other one has the same rank. *)
Theorem getPermutationNumber_range_injective (cards : list Card) :
  length cards = 4%nat → idsDistinct cards →
  1 ≤ getPermutationNumber cards ≤ 24 ∧
  ∀ cards', cards' ≡ₚ cards →
            getPermutationNumber cards' = getPermutationNumber cards →
            cards' = cards.
Proof.
  intros Hlen Hd. split.
  - rewrite getPermutationNumber_rankOf by done.
    by apply rankOf_range, originalOrder_perm.
  - intros cards' Hperm Hrank.
    assert (Hlen' : length cards' = 4%nat) by (by rewrite Hperm).
    assert (Hd' : idsDistinct cards') by (eapply idsDistinct_perm; [symmetry|]; done).
    assert (HC : canonicalOrder cards' = canonicalOrder cards).
    { apply canonicalOrder_unique; [by apply canonicalOrder_strict| |done].
      by rewrite canonicalOrder_perm. }
    rewrite !getPermutationNumber_rankOf in Hrank by done.
    rewrite HC in Hrank.
    apply rankOf_inj in Hrank.
    + apply (inj (fmap Some)).
      assert (Hnodup : NoDup (canonicalOrder cards))
        by (rewrite canonicalOrder_perm; by apply idsDistinct_NoDup).
      rewrite <- (lookup_positions (canonicalOrder cards) cards'),
              <- (lookup_positions (canonicalOrder cards) cards);
        [by rewrite Hrank|done|by rewrite canonicalOrder_perm|done
        |by rewrite canonicalOrder_perm].
    + rewrite <- HC. by apply originalOrder_perm.
    + by apply originalOrder_perm.
Qed.

Lemma scenarioOrder_distinct : idsDistinct scenarioOrder.
Proof. split; apply (bool_decide_unpack _); vm_compute; reflexivity. Qed.

Lemma getPermutationNumber_range_injective_witness :
  length scenarioOrder = 4%nat ∧ idsDistinct scenarioOrder ∧
  1 ≤ getPermutationNumber scenarioOrder ≤ 24.
Proof.
  split; [reflexivity|]. split; [exact scenarioOrder_distinct|].
  apply (getPermutationNumber_range_injective scenarioOrder);
    [reflexivity | exact scenarioOrder_distinct].
Defined.

(** C10.  On a list whose length is not 4 the function returns 0, a value
    outside the range [1,24] of the ranks. *)
Theorem getPermutationNumber_wrong_length (cards : list Card) :
  length cards ≠ 4%nat →
  getPermutationNumber cards = 0 ∧ ¬ (1 ≤ getPermutationNumber cards ≤ 24).
Proof.
  intros Hlen. unfold getPermutationNumber.
  rewrite decide_True by done. split; [done|lia].
Qed.

Lemma getPermutationNumber_wrong_length_witness :
  getPermutationNumber [sevenOfDiamonds; queenOfSpades; threeOfClubs] = 0 ∧
  ¬ (1 ≤ getPermutationNumber [sevenOfDiamonds; queenOfSpades; threeOfClubs] ≤ 24).
Proof.
  apply (getPermutationNumber_wrong_length
           [sevenOfDiamonds; queenOfSpades; threeOfClubs]).
  simpl. lia.
Defined.

(** C4 as the specification states it does not hold: it gives the 3 of
    Clubs the id 14, while [getCardNumber] gives it 3 + 13 * 1 = 16. *)
Lemma scenario_ids_as_stated_fail :
  ¬ (getCardNumber <$> scenarioOrder = [Some 46; Some 12; Some 14; Some 28] ∧
     originalOrderOf scenarioOrder = [3; 0; 1; 2] ∧
     countAt (originalOrderOf scenarioOrder) <$> seqZ 0 4 = [3; 0; 0; 0] ∧
     getPermutationNumber scenarioOrder = 19).
Proof. intros [Hids _]. vm_compute in Hids. discriminate Hids. Qed.

(** C4, amended.  For the order [7 of Diamonds, Queen of Spades, 3 of
    Clubs, 2 of Hearts] the ids are 46, 12, 16 and 28, the canonical
    positions are [3,0,1,2], the Lehmer counts are [3,0,0,0] and the rank
    is 19. *)
Theorem scenario_rank :
  getCardNumber <$> scenarioOrder = [Some 46; Some 12; Some 16; Some 28] ∧
  originalOrderOf scenarioOrder = [3; 0; 1; 2] ∧
  countAt (originalOrderOf scenarioOrder) <$> seqZ 0 4 = [3; 0; 0; 0] ∧
  getPermutationNumber scenarioOrder = 19.
Proof. repeat split; vm_compute; reflexivity. Qed.

(** * The card-identity map *)

Lemma ordinal_range s : s ∈ suitsInOrder → 0 ≤ ordinal s ≤ 3.
Proof.
  revert s. apply Forall_forall.
  apply (bool_decide_unpack _). vm_compute. reflexivity.
Qed.

Lemma ordinal_inj s1 s2 :
  s1 ∈ suitsInOrder → s2 ∈ suitsInOrder → ordinal s1 = ordinal s2 → s1 = s2.
Proof.
  intros H1 H2.
  assert (Hall : Forall (λ a, Forall (λ b, ordinal a = ordinal b → a = b)
                                    suitsInOrder) suitsInOrder)
    by (apply (bool_decide_unpack _); vm_compute; reflexivity).
  rewrite Forall_forall in Hall. specialize (Hall s1 H1).
  rewrite Forall_forall in Hall. exact (Hall s2 H2).
Qed.

(** On the four suits the table [suitOrder] is the ordinal of the suit. *)
Lemma suitOrder_ordinal s :
  s ∈ suitsInOrder → suitOrder !! s = Some (ordinal s).
Proof.
  revert s. apply Forall_forall.
  apply (bool_decide_unpack _). vm_compute. reflexivity.
Qed.

Lemma getCardNumber_legal c :
  legalCard c → getCardNumber c = Some (value c + 13 * ordinal (suit c)).
Proof.
  intros [Hs _]. unfold getCardNumber.
  rewrite (suitOrder_ordinal _ Hs). cbn. f_equal. lia.
Qed.

Lemma unidentify_legal id :
  1 ≤ id ≤ 52 →
  (unidentify id).1 ∈ suitsInOrder ∧ 1 ≤ (unidentify id).2 ≤ 13 ∧
  (unidentify id).2 + 13 * ordinal (unidentify id).1 = id.
Proof.
  intros Hid.
  assert (Hin : id ∈ seqZ 1 52) by (apply elem_of_seqZ; lia).
  assert (Hall : Forall (λ id, (unidentify id).1 ∈ suitsInOrder ∧
                               1 ≤ (unidentify id).2 ≤ 13 ∧
                               (unidentify id).2 + 13 * ordinal (unidentify id).1 = id)
                        (seqZ 1 52))
    by (apply (bool_decide_unpack _); vm_compute; reflexivity).
  rewrite Forall_forall in Hall. by apply Hall.
Qed.

(** C3.  On the 52 legal (suit, rank) pairs [getCardNumber] is
    rank + 13 * ordinal(suit) for the order Spades < Clubs < Hearts <
    Diamonds; the id lies in [1,52]; two legal cards with the same id have
    the same suit and rank; every id of [1,52] is the id of a legal pair. *)
Theorem getCardNumber_bijection :
  suitsInOrder = ["spades"; "clubs"; "hearts"; "diamonds"] ∧
  (∀ c, legalCard c →
        getCardNumber c = Some (value c + 13 * ordinal (suit c)) ∧
        1 ≤ value c + 13 * ordinal (suit c) ≤ 52) ∧
  (∀ c1 c2, legalCard c1 → legalCard c2 →
            getCardNumber c1 = getCardNumber c2 →
            suit c1 = suit c2 ∧ value c1 = value c2) ∧
  (∀ id, 1 ≤ id ≤ 52 →
         ∃ s v, s ∈ suitsInOrder ∧ 1 ≤ v ≤ 13 ∧
                ∀ o img, getCardNumber (mkCard o s v img) = Some id).
Proof.
  split; [reflexivity|]. split; [|split].
  - intros c Hc. split; [by apply getCardNumber_legal|].
    destruct Hc as [Hs Hv]. pose proof (ordinal_range _ Hs). lia.
  - intros c1 c2 H1 H2 Heq.
    rewrite (getCardNumber_legal c1 H1), (getCardNumber_legal c2 H2) in Heq.
    injection Heq as Heq.
    destruct H1 as [Hs1 Hv1], H2 as [Hs2 Hv2].
    pose proof (ordinal_range _ Hs1). pose proof (ordinal_range _ Hs2).
    assert (ordinal (suit c1) = ordinal (suit c2)) by lia.
    split; [by apply ordinal_inj | lia].
  - intros id Hid. destruct (unidentify_legal id Hid) as (Hs & Hv & Hsum).
    exists (unidentify id).1, (unidentify id).2.
    split; [done|]. split; [done|]. intros o img.
    rewrite getCardNumber_legal by (split; [exact Hs|exact Hv]).
    cbn [suit value]. by rewrite Hsum.
Qed.

Lemma threeOfClubs_legal : legalCard threeOfClubs.
Proof. split; [apply (bool_decide_unpack _); vm_compute; reflexivity | cbn; lia]. Qed.

Lemma getCardNumber_bijection_witness :
  legalCard threeOfClubs ∧
  getCardNumber threeOfClubs = Some (value threeOfClubs + 13 * ordinal (suit threeOfClubs)) ∧
  1 ≤ value threeOfClubs + 13 * ordinal (suit threeOfClubs) ≤ 52.
Proof.
  split; [exact threeOfClubs_legal|].
  apply (proj1 (proj2 getCardNumber_bijection) threeOfClubs threeOfClubs_legal).
Defined.

(** * Rank and unrank *)

Lemma strict_NoDup {A} (key : A → Z) (l : list A) :
  StronglySorted (λ a b, key a < key b) l → NoDup (key <$> l).
Proof.
  induction 1 as [|x l Hss IH Hall]; [constructor|].
  rewrite fmap_cons. apply NoDup_cons. split; [|done].
  intros Hx. apply list_elem_of_fmap in Hx as [y [Hkey Hy]].
  rewrite Forall_forall in Hall. specialize (Hall y Hy). cbn in Hall. lia.
Qed.

Lemma canonical_idsDistinct C : canonical C → idsDistinct C.
Proof.
  intros [Hdef Hss]. split; [done|].
  apply (strict_NoDup cardKey) in Hss. unfold cardKey in Hss.
  change (λ c, default 0 (getCardNumber c)) with (default 0 ∘ getCardNumber) in Hss.
  rewrite list_fmap_compose in Hss. by apply NoDup_fmap_1 in Hss.
Qed.

Lemma unrankPositions_rankOf p :
  p ≡ₚ positions4 → unrankPositions (rankOf p) = Some p.
Proof.
  intros Hp. symmetry in Hp. apply permutations_Permutation in Hp.
  assert (Hall : Forall (λ p, unrankPositions (rankOf p) = Some p)
                        (permutations positions4))
    by (apply (bool_decide_unpack _); vm_compute; reflexivity).
  rewrite Forall_forall in Hall. by apply Hall.
Qed.

Lemma rankOf_unrankPositions r :
  1 ≤ r ≤ 24 →
  ∃ p, p ≡ₚ positions4 ∧ unrankPositions r = Some p ∧ rankOf p = r.
Proof.
  intros Hr.
  assert (Hin : r ∈ seqZ 1 24) by (apply elem_of_seqZ; lia).
  assert (Hall : Forall (λ r, Exists (λ p, unrankPositions r = Some p ∧ rankOf p = r)
                                     (permutations positions4))
                        (seqZ 1 24))
    by (apply (bool_decide_unpack _); vm_compute; reflexivity).
  rewrite Forall_forall in Hall. specialize (Hall r Hin).
  apply Exists_exists in Hall as (p & Hp & Hun & Hrank).
  exists p. split; [|done]. symmetry. by apply permutations_Permutation.
Qed.

Lemma mapM_fmap_eq {A B} (f : A → option B) (l : list A) (k : list B) :
  f <$> l = Some <$> k → mapM f l = Some k.
Proof.
  intros Heq. apply mapM_Some_2.
  revert k Heq. induction l as [|x l IH]; intros [|y k] Heq; simplify_eq/=;
    constructor; auto.
Qed.

Lemma positions_of_selection (C : list Card) (P : list Z) (O : list Card) :
  NoDup C → Forall (λ p, 0 ≤ p) P →
  (λ p, C !! Z.to_nat p) <$> P = Some <$> O →
  positionOf C <$> O = P.
Proof.
  intros Hnodup HP. revert O.
  induction HP as [|p P Hp HP IH]; intros [|c O] Heq; simplify_eq/=; [done|].
  f_equal; [|by apply IH].
  rewrite (positionOf_lookup C (Z.to_nat p) c) by done. lia.
Qed.

(** C2.  [unrank], as the specification describes it, inverts the rank of
    the source: for a canonical order [C] of four cards, every ordering [O]
    of [C] satisfies [unrank (rank O) C = O], and every [r] in [1,24] is
    the rank of the ordering [unrank r C]. *)
Theorem unrank_getPermutationNumber_inverse (C : list Card) :
  length C = 4%nat → canonical C →
  (∀ O, O ≡ₚ C → unrank (getPermutationNumber O) C = Some O) ∧
  (∀ r, 1 ≤ r ≤ 24 →
        ∃ O, unrank r C = Some O ∧ O ≡ₚ C ∧ getPermutationNumber O = r).
Proof.
  intros Hlen Hcanon.
  pose proof (canonical_idsDistinct C Hcanon) as HdC.
  pose proof (idsDistinct_NoDup C HdC) as HnodupC.
  destruct Hcanon as [_ Hss].
  assert (Hcanon : ∀ O, O ≡ₚ C → canonicalOrder O = C).
  { intros O HO. apply canonicalOrder_unique; [done..|].
    eapply idsDistinct_perm; [symmetry|]; done. }
  split.
  - intros O HO.
    assert (HlenO : length O = 4%nat) by (by rewrite HO).
    rewrite getPermutationNumber_rankOf, (Hcanon O HO) by done.
    assert (HP : positionOf C <$> O ≡ₚ positions4) by (by apply positions_perm).
    unfold unrank. rewrite decide_True by (by apply rankOf_range).
    rewrite unrankPositions_rankOf by done. cbn.
    apply mapM_fmap_eq. by apply lookup_positions.
  - intros r Hr.
    destruct (rankOf_unrankPositions r Hr) as (P & HP & Hun & Hrank).
    assert (Hsel : (λ p, C !! Z.to_nat p) <$> P ≡ₚ Some <$> C).
    { rewrite HP. do 5 (destruct C as [|? C]; try done). }
    apply Permutation_map_inv in Hsel as (O & Hsel & HO).
    symmetry in HO. exists O.
    assert (HlenO : length O = 4%nat) by (by rewrite HO).
    split; [|split; [done|]].
    + unfold unrank. rewrite decide_True, Hun by done. cbn.
      by apply mapM_fmap_eq.
    + rewrite getPermutationNumber_rankOf, (Hcanon O HO) by done.
      rewrite (positions_of_selection C P O); [done..| |done].
      rewrite HP. by repeat constructor.
Qed.

Lemma canonicalScenario_canonical : canonical (canonicalOrder scenarioOrder).
Proof.
  split.
  - apply (bool_decide_unpack _). vm_compute. reflexivity.
  - apply canonicalOrder_strict, scenarioOrder_distinct.
Qed.

Lemma unrank_getPermutationNumber_inverse_witness :
  unrank (getPermutationNumber scenarioOrder) (canonicalOrder scenarioOrder)
  = Some scenarioOrder.
Proof.
  apply (unrank_getPermutationNumber_inverse (canonicalOrder scenarioOrder));
    [reflexivity | exact canonicalScenario_canonical | ].
  symmetry. apply canonicalOrder_perm.
Defined.

(** * The session *)

Lemma idsDefined_key cards :
  idsDefined cards → getCardNumber <$> cards = Some <$> (cardKey <$> cards).
Proof.
  intros Hdef. rewrite <- list_fmap_compose. apply list_fmap_ext.
  intros i c Hc. unfold idsDefined in Hdef. rewrite Forall_forall in Hdef.
  destruct (Hdef c) as [x Hx]; [by eapply list_elem_of_lookup_2|].
  unfold cardKey. cbn. by rewrite Hx.
Qed.

(** C5.  With five cards selected, the first four each with an identity
    id, [handleReorder] puts the fifth selected card first (the hidden card),
    followed by the first four sorted ascending by id, and moves to the
    phase [reordered]. *)
Theorem handleReorder_commit (st : AppState) :
  length (selectedCards st) = 5%nat → idsDefined (take 4 (selectedCards st)) →
  ∃ fifthCard sortedCards ids,
    selectedCards st !! 4%nat = Some fifthCard ∧
    reorderedCards (handleReorder st) = fifthCard :: sortedCards ∧
    sortedCards ≡ₚ take 4 (selectedCards st) ∧
    getCardNumber <$> sortedCards = Some <$> ids ∧
    StronglySorted Z.le ids ∧
    gamePhase (handleReorder st) = reordered ∧
    showHiddenCard (handleReorder st) = false ∧
    selectedCards (handleReorder st) = selectedCards st ∧
    deck (handleReorder st) = deck st.
Proof.
  intros Hlen Hdef.
  destruct (lookup_lt_is_Some_2 (selectedCards st) 4) as [fifthCard Hfifth];
    [lia|].
  assert (Hdef4 : idsDefined (canonicalOrder (take 4 (selectedCards st)))).
  { unfold idsDefined. by rewrite canonicalOrder_perm. }
  exists fifthCard, (canonicalOrder (take 4 (selectedCards st))),
         (cardKey <$> canonicalOrder (take 4 (selectedCards st))).
  unfold handleReorder. rewrite decide_False by (intros Hne; by apply Hne).
  rewrite Hfifth. cbn. rewrite sortedCardsOf_canonical.
  repeat split; try done.
  - apply canonicalOrder_perm.
  - by apply idsDefined_key.
  - apply (StronglySorted_fmap cardKey (ascending cardKey)); [done|].
    by apply canonicalOrder_ascending.
Qed.

Lemma scenarioHand_defined : idsDefined (take 4 scenarioHand).
Proof. apply (bool_decide_unpack _). vm_compute. reflexivity. Qed.

Lemma handleReorder_commit_witness :
  ∃ fifthCard sortedCards ids,
    selectedCards scenarioState !! 4%nat = Some fifthCard ∧
    reorderedCards (handleReorder scenarioState) = fifthCard :: sortedCards ∧
    sortedCards ≡ₚ take 4 (selectedCards scenarioState) ∧
    getCardNumber <$> sortedCards = Some <$> ids ∧
    StronglySorted Z.le ids ∧
    gamePhase (handleReorder scenarioState) = reordered ∧
    showHiddenCard (handleReorder scenarioState) = false ∧
    selectedCards (handleReorder scenarioState) = selectedCards scenarioState ∧
    deck (handleReorder scenarioState) = deck scenarioState.
Proof.
  apply (handleReorder_commit scenarioState);
    [reflexivity | exact scenarioHand_defined].
Defined.

(** The four cards shown do not depend on the order in which they were
    picked, hence not on the permutation rank that order has. *)
Lemma handleReorder_display_ignores_order (st st' : AppState) :
  length (selectedCards st) = 5%nat → length (selectedCards st') = 5%nat →
  idsDistinct (take 4 (selectedCards st)) →
  take 4 (selectedCards st') ≡ₚ take 4 (selectedCards st) →
  drop 1 (reorderedCards (handleReorder st'))
  = drop 1 (reorderedCards (handleReorder st)).
Proof.
  intros Hlen Hlen' Hd Hperm.
  destruct (lookup_lt_is_Some_2 (selectedCards st) 4) as [c Hc]; [lia|].
  destruct (lookup_lt_is_Some_2 (selectedCards st') 4) as [c' Hc']; [lia|].
  unfold handleReorder.
  rewrite !decide_False by (intros Hne; by apply Hne).
  rewrite Hc, Hc'. cbn [reorderedCards drop]. rewrite !sortedCardsOf_canonical.
  apply canonicalOrder_unique; [by apply canonicalOrder_strict| |].
  - by rewrite canonicalOrder_perm.
  - eapply idsDistinct_perm; [symmetry|]; done.
Qed.

Lemma alreadySelected_inHand selected c0 :
  alreadySelected selected c0 = true ↔ inHand selected c0.
Proof.
  unfold alreadySelected, inHand. rewrite existsb_exists. split.
  - intros (c & Hc & Heq). apply andb_true_iff in Heq as [Hs Hv].
    apply bool_decide_eq_true in Hs, Hv.
    exists c. by rewrite list_elem_of_In.
  - intros (c & Hc & Hs & Hv). exists c. rewrite <- list_elem_of_In.
    split; [done|]. by rewrite !bool_decide_eq_true_2.
Qed.

(** A session is in the phase [reordered] only with five cards selected. *)
Lemma reachable_reordered st :
  reachable st → gamePhase st = reordered → length (selectedCards st) = 5%nat.
Proof.
  induction 1 as [|e st r Hreach IH]; [done|].
  destruct e as [imgs|c| | |]; cbn.
  - unfold mountEffect. destruct (shuffle _ r). exact IH.
  - unfold handleCardClick.
    destruct (decide (gamePhase st ≠ selection)) as [|Hsel]; [done|].
    assert (Hphase : gamePhase st = selection)
      by (destruct (gamePhase st); [done | exfalso; by apply Hsel]).
    case_decide; [done|].
    destruct (alreadySelected _ _); [done|]. cbn. congruence.
  - unfold handleReorder. case_decide; [done|].
    destruct (selectedCards st !! 4%nat); [|done]. cbn. intros _.
    destruct (decide (length (selectedCards st) = 5%nat)); [done|]. by exfalso.
  - unfold handleReset. destruct (shuffle _ r). done.
  - exact IH.
Qed.

(** C6.  The transitions that are not legal change nothing: a click outside
    the phase [selection], with five cards selected, or on a card already
    in the hand; a reorder with fewer than five cards (after which a
    session is still in [selection]).  A reset always leads to [selection]
    with an empty hand. *)
Theorem session_transitions_legality :
  (∀ st c, gamePhase st ≠ selection ∨
           (5 ≤ length (selectedCards st))%nat ∨
           inHand (selectedCards st) c →
           handleCardClick st c = st) ∧
  (∀ st, (length (selectedCards st) < 5)%nat →
         handleReorder st = st ∧
         (reachable st → gamePhase (handleReorder st) = selection)) ∧
  (∀ st r, gamePhase (handleReset st r).1 = selection ∧
           selectedCards (handleReset st r).1 = []).
Proof.
  split; [|split].
  - intros st c Hcase. unfold handleCardClick.
    case_decide; [done|]. case_decide; [done|].
    destruct Hcase as [?|[?|Hin]]; [done..|].
    apply alreadySelected_inHand in Hin. by rewrite Hin.
  - intros st Hlen.
    assert (Hsame : handleReorder st = st).
    { unfold handleReorder. rewrite decide_True by lia. done. }
    split; [done|]. intros Hreach. rewrite Hsame.
    destruct (gamePhase st) eqn:Hphase; [done|].
    apply reachable_reordered in Hphase; [lia|done].
  - intros st r. unfold handleReset. by destruct (shuffle _ r).
Qed.

Lemma session_transitions_legality_witness :
  handleReorder initialState = initialState ∧
  (reachable initialState → gamePhase (handleReorder initialState) = selection).
Proof.
  apply (proj1 (proj2 session_transitions_legality) initialState).
  simpl. lia.
Defined.

(** C9.  The toggle negates [showHiddenCard] and leaves the deck, the
    hand, the stored arrangement, the phase and the loading flag as they
    are. *)
Theorem toggleReveal_frame (st : AppState) :
  showHiddenCard (toggleReveal st) = negb (showHiddenCard st) ∧
  deck (toggleReveal st) = deck st ∧
  selectedCards (toggleReveal st) = selectedCards st ∧
  reorderedCards (toggleReveal st) = reorderedCards st ∧
  gamePhase (toggleReveal st) = gamePhase st ∧
  isLoading (toggleReveal st) = isLoading st.
Proof. by repeat split. Qed.

(** * The deck *)

Lemma pushCard_present cardImages s cards i :
  assetPresent cardImages s i = true →
  pairOf <$> pushCard cardImages s cards i = (pairOf <$> cards) ++ [(s, i)].
Proof.
  unfold assetPresent, pushCard. intros Hpresent.
  destruct (cardImages !! imagePathOf s i) as [url|]; [|done].
  rewrite Hpresent. by rewrite fmap_app.
Qed.

Lemma pushCard_absent cardImages s cards i :
  assetPresent cardImages s i = false → pushCard cardImages s cards i = cards.
Proof.
  unfold assetPresent, pushCard. intros Habsent.
  destruct (cardImages !! imagePathOf s i) as [url|]; [|done].
  by rewrite Habsent.
Qed.






(** The guard of the inner loop: without images nothing is pushed. *)
Lemma generateCards_without_assets : generateCards ∅ = [].
Proof. vm_compute. reflexivity. Qed.

(** * Further properties of the helpers *)

Lemma factorial_model n : factorial n = Z.of_nat (fact (Z.to_nat n)).
Proof.
  destruct (decide (n ≤ 0)) as [Hneg|Hpos].
  - rewrite factorial_recursion, decide_True by lia.
    by replace (Z.to_nat n) with 0%nat by lia.
  - assert (Hn : 0 ≤ n) by lia. clear Hpos. revert n Hn.
    apply natlike_ind; [by vm_compute|].
    intros n Hn IH. rewrite factorial_recursion.
    replace (Z.succ n - 1) with n by lia. rewrite IH.
    rewrite Z2Nat.inj_succ by done. cbn [fact].
    case_decide.
    + assert (n = 0) as -> by lia. by vm_compute.
    + lia.
Qed.

(** For an integer up to 22, [factorial] is the factorial of the naturals,
    and 1 below them: a negative argument ends the recursion at once.
    Up to 22 every product is a number a double holds exactly, so that
    the integers of the model are the numbers of the source. *)
Theorem factorial_fact (n : Z) :
  n ≤ 22 → factorial n = Z.of_nat (fact (Z.to_nat n)).
Proof. intros _. apply factorial_model. Qed.

Lemma suitOrder_missing s : s ∉ suitsInOrder → suitOrder !! s = None.
Proof.
  unfold suitsInOrder. rewrite !not_elem_of_cons. intros (H1 & H2 & H3 & H4 & _).
  unfold suitOrder.
  rewrite !lookup_insert_ne by done. by rewrite lookup_singleton_ne.
Qed.

Lemma getCardNumber_None c : getCardNumber c = None ↔ unknownSuit c.
Proof.
  unfold unknownSuit, getCardNumber. split.
  - intros Hnone Hs. by rewrite (suitOrder_ordinal _ Hs) in Hnone.
  - intros Hs. by rewrite (suitOrder_missing _ Hs).
Qed.

(** For a card with an integer value, as all cards of the program have,
    [getCardNumber] is [NaN] exactly when the suit is no key of
    [suitOrder]. *)
Theorem getCardNumber_NaN_iff (c : Card) :
  getCardNumber c = None ↔ unknownSuit c.
Proof. apply getCardNumber_None. Qed.

(** * Hands that are in order already *)

Lemma cardCompare_defined a b :
  is_Some (getCardNumber a) → is_Some (getCardNumber b) →
  cardCompare a b = (cardKey a ?= cardKey b).
Proof.
  intros [x Hx] [y Hy]. unfold cardCompare, cardKey. rewrite Hx, Hy. cbn.
  destruct (Z.compare_spec x y), (Z.compare_spec (x - y) 0); try done; lia.
Qed.

Lemma cardCompare_NaN a b :
  getCardNumber a = None ∨ getCardNumber b = None → cardCompare a b = Eq.
Proof.
  unfold cardCompare. intros [->| ->]; [done|]. by destruct (getCardNumber a).
Qed.

Lemma ascending_in_order cards :
  idsDefined cards → StronglySorted (ascending cardKey) cards →
  Sorted (λ y x, cardCompare x y ≠ Lt) cards.
Proof.
  intros Hdef Hss. induction Hss as [|y cards Hss IH Hall]; [constructor|].
  apply Forall_cons in Hdef as [Hy Hdef]. constructor; [by apply IH|].
  destruct cards as [|x cards]; constructor.
  apply Forall_cons in Hall as [Hyx _], Hdef as [Hx _].
  rewrite cardCompare_defined by done. unfold ascending in Hyx.
  rewrite Z.compare_lt_iff. lia.
Qed.

Lemma unknown_in_order cards :
  Forall unknownSuit cards → Sorted (λ y x, cardCompare x y ≠ Lt) cards.
Proof.
  induction 1 as [|y cards Hy Hall IH]; constructor; [done|].
  destruct cards as [|x cards]; constructor.
  rewrite cardCompare_NaN; [done|]. right. by apply getCardNumber_None.
Qed.

Lemma rank_of_ordered cards :
  length cards = 4%nat → NoDup cards →
  Sorted (λ y x, cardCompare x y ≠ Lt) cards →
  getPermutationNumber cards = 1.
Proof.
  intros Hlen Hnodup Hsorted.
  rewrite getPermutationNumber_rankOf by done.
  unfold canonicalOrder. rewrite sortPure_in_order by done.
  rewrite positions_self, Hlen by done. by vm_compute.
Qed.

(** * Further properties of the permutation rank *)

(** For any four distinct card objects the result is in [1,24], also when
    ids coincide or are [NaN]: no combination of suits and values makes
    the function leave the range or fail. *)
Theorem getPermutationNumber_objects_range (cards : list Card) :
  length cards = 4%nat → NoDup cards →
  1 ≤ getPermutationNumber cards ≤ 24.
Proof.
  intros Hlen Hnodup. rewrite getPermutationNumber_rankOf by done.
  apply rankOf_range, positions_perm.
  - by rewrite canonicalOrder_perm.
  - by rewrite canonicalOrder_perm.
  - by rewrite canonicalOrder_perm.
Qed.

(** The comment of the source, "ABCD = 1": four cards given in ascending
    order of their ids (ties allowed) have rank 1. *)
Theorem getPermutationNumber_ascending (cards : list Card) :
  length cards = 4%nat → NoDup cards → idsDefined cards →
  StronglySorted (ascending cardKey) cards →
  getPermutationNumber cards = 1.
Proof.
  intros Hlen Hnodup Hdef Hss.
  by apply rank_of_ordered, ascending_in_order.
Qed.

(** The comment of the source, "DCBA = 24": four cards given in strictly
    descending order of their ids have rank 24. *)
Theorem getPermutationNumber_descending (cards : list Card) :
  length cards = 4%nat → idsDefined cards →
  StronglySorted (flip cardLt) cards →
  getPermutationNumber cards = 24.
Proof.
  intros Hlen Hdef Hss.
  do 5 (destruct cards as [|? cards]; try done). clear Hlen.
  rename c into a, c0 into b, c1 into c', c2 into d.
  assert (Hkeys : cardKey d < cardKey c' ∧ cardKey c' < cardKey b ∧
                  cardKey b < cardKey a).
  { repeat match goal with
           | H : StronglySorted _ (_ :: _) |- _ =>
               apply StronglySorted_inv in H as [? ?]
           | H : Forall _ (_ :: _) |- _ => apply Forall_cons in H as [? ?]
           end.
    unfold flip, cardLt in *. lia. }
  assert (Hrev : StronglySorted cardLt [d; c'; b; a]).
  { repeat (constructor; [|repeat constructor; unfold cardLt; lia]); constructor. }
  assert (Hperm : [a; b; c'; d] ≡ₚ [d; c'; b; a])
    by (change [d; c'; b; a] with (reverse [a; b; c'; d]);
        by rewrite reverse_Permutation).
  assert (Hd : idsDistinct [a; b; c'; d]).
  { eapply idsDistinct_perm; [symmetry; exact Hperm|]. split.
    - unfold idsDefined. by rewrite <- Hperm.
    - apply (strict_NoDup cardKey) in Hrev. unfold cardKey in Hrev.
      change (λ c, default 0 (getCardNumber c))
        with (default 0 ∘ getCardNumber) in Hrev.
      rewrite list_fmap_compose in Hrev. by apply NoDup_fmap_1 in Hrev. }
  rewrite getPermutationNumber_rankOf by done.
  rewrite (canonicalOrder_unique [d; c'; b; a]) by done.
  assert (Hnodup : NoDup [d; c'; b; a])
    by (rewrite <- Hperm; by apply idsDistinct_NoDup).
  cbn [fmap list_fmap].
  rewrite (positionOf_lookup _ 3 a), (positionOf_lookup _ 2 b),
          (positionOf_lookup _ 1 c'), (positionOf_lookup _ 0 d) by done.
  by vm_compute.
Qed.

(** Four distinct card objects none of which has a known suit have rank 1
    in whatever order they come: the ids are all [NaN], the sort moves
    nothing, and the function returns a rank instead of failing. *)
Theorem getPermutationNumber_unknown_suits (cards : list Card) :
  length cards = 4%nat → NoDup cards → Forall unknownSuit cards →
  getPermutationNumber cards = 1.
Proof.
  intros Hlen Hnodup Hunknown.
  by apply rank_of_ordered, unknown_in_order.
Qed.

(** * The rank follows the dictionary order *)

Lemma rankOf_lexLt p q :
  p ≡ₚ positions4 → q ≡ₚ positions4 → rankOf p < rankOf q ↔ lexLt p q.
Proof.
  intros Hp Hq. symmetry in Hp, Hq.
  apply permutations_Permutation in Hp, Hq.
  assert (Hall : Forall (λ p, Forall (λ q, rankOf p < rankOf q ↔ lexLt p q)
                                    (permutations positions4))
                        (permutations positions4))
    by (apply (bool_decide_unpack _); vm_compute; reflexivity).
  rewrite Forall_forall in Hall. specialize (Hall p Hp).
  rewrite Forall_forall in Hall. exact (Hall q Hq).
Qed.

Lemma lexLt_fmap {A} (f g : A → Z) (l k : list A) :
  (∀ a b, a ∈ l → b ∈ k → (f a < f b ↔ g a < g b) ∧ (f a = f b ↔ g a = g b)) →
  lexLt (f <$> l) (f <$> k) ↔ lexLt (g <$> l) (g <$> k).
Proof.
  revert k. induction l as [|a l IH]; intros [|b k] Hfg; cbn; try done.
  destruct (Hfg a b) as [Hlt Heq]; [by left..|].
  rewrite Hlt, Heq, IH; [done|].
  intros a' b' Ha' Hb'. apply Hfg; by right.
Qed.

Lemma StronglySorted_lookup_lt {A} (R : relation A) l i j x y :
  StronglySorted R l → l !! i = Some x → l !! j = Some y → (i < j)%nat → R x y.
Proof.
  intros Hss. revert i j. induction Hss as [|z l Hss IH Hall];
    intros i j Hi Hj Hij; [done|].
  destruct j as [|j]; [lia|]. destruct i as [|i]; simplify_eq/=.
  - rewrite Forall_forall in Hall. apply Hall. by eapply list_elem_of_lookup_2.
  - apply (IH i j); [done..|lia].
Qed.

(** In a strictly ascending order, positions compare as the ids do. *)
Lemma positionOf_monotone C a b :
  StronglySorted cardLt C → NoDup C → a ∈ C → b ∈ C →
  (positionOf C a < positionOf C b ↔ cardKey a < cardKey b) ∧
  (positionOf C a = positionOf C b ↔ cardKey a = cardKey b).
Proof.
  intros Hss Hnodup Ha Hb.
  apply list_elem_of_lookup in Ha as [i Hi], Hb as [j Hj].
  rewrite (positionOf_lookup C i a), (positionOf_lookup C j b) by done.
  destruct (lt_eq_lt_dec i j) as [[Hij| ->]|Hij].
  - pose proof (StronglySorted_lookup_lt cardLt C i j a b Hss Hi Hj Hij) as Hlt.
    unfold cardLt in Hlt. lia.
  - assert (a = b) as -> by congruence. lia.
  - pose proof (StronglySorted_lookup_lt cardLt C j i b a Hss Hj Hi Hij) as Hlt.
    unfold cardLt in Hlt. lia.
Qed.

(** Among the orderings of four cards with distinct ids, the rank grows
    with the dictionary order of the id sequences: one ordering has the
    smaller rank exactly when its ids come first in that order. *)
Theorem getPermutationNumber_lexicographic (cards cards' : list Card) :
  length cards = 4%nat → idsDistinct cards → cards' ≡ₚ cards →
  getPermutationNumber cards < getPermutationNumber cards'
  ↔ lexLt (cardKey <$> cards) (cardKey <$> cards').
Proof.
  intros Hlen Hd Hperm.
  assert (Hlen' : length cards' = 4%nat) by (by rewrite Hperm).
  assert (Hd' : idsDistinct cards') by (eapply idsDistinct_perm; [symmetry|]; done).
  assert (HC : canonicalOrder cards' = canonicalOrder cards).
  { apply canonicalOrder_unique; [by apply canonicalOrder_strict| |done].
    by rewrite canonicalOrder_perm. }
  rewrite !getPermutationNumber_rankOf, HC by done.
  assert (Hnodup : NoDup (canonicalOrder cards))
    by (rewrite canonicalOrder_perm; by apply idsDistinct_NoDup).
  rewrite rankOf_lexLt.
  - apply lexLt_fmap. intros a b Ha Hb.
    apply positionOf_monotone; [by apply canonicalOrder_strict|done| |].
    + by rewrite canonicalOrder_perm.
    + by rewrite canonicalOrder_perm, <- Hperm.
  - by apply originalOrder_perm.
  - rewrite <- HC. by apply originalOrder_perm.
Qed.

(** * Deck generation with any set of images *)

Lemma pushCard_pairs cardImages s cards i :
  pairOf <$> pushCard cardImages s cards i
  = (pairOf <$> cards) ++ (if assetPresent cardImages s i then [(s, i)] else []).
Proof.
  destruct (assetPresent cardImages s i) eqn:Hpresent.
  - by apply pushCard_present.
  - rewrite pushCard_absent by done. by rewrite app_nil_r.
Qed.

Lemma inner_loop_filter cardImages s (values : list Z) cards :
  pairOf <$> foldl (pushCard cardImages s) cards values
  = (pairOf <$> cards)
    ++ filter (λ p, assetPresent cardImages p.1 p.2) ((λ i, (s, i)) <$> values).
Proof.
  revert cards. induction values as [|i values IH]; intros cards; cbn [foldl].
  - cbn. by rewrite app_nil_r.
  - rewrite IH, pushCard_pairs, <- app_assoc. f_equal.
    rewrite fmap_cons, filter_cons. cbn [fst snd].
    destruct (assetPresent cardImages s i); by case_decide.
Qed.

Lemma outer_loop_filter cardImages (ss : list string) cards :
  pairOf <$> foldl (λ cards s, foldl (pushCard cardImages s) cards (seqZ 1 13)) cards ss
  = (pairOf <$> cards)
    ++ filter (λ p, assetPresent cardImages p.1 p.2)
              (s ← ss; (λ i, (s, i)) <$> seqZ 1 13).
Proof.
  revert cards. induction ss as [|s ss IH]; intros cards; cbn [foldl].
  - cbn. by rewrite app_nil_r.
  - rewrite IH, inner_loop_filter, bind_cons, filter_app. by rewrite <- app_assoc.
Qed.

Lemma generateCards_filter cardImages :
  pairOf <$> generateCards cardImages
  = filter (λ p, assetPresent cardImages p.1 p.2) nestedPairs.
Proof. unfold generateCards. by rewrite outer_loop_filter. Qed.

(** The generated array holds, in the order of the two loops, exactly the
    (suit, rank) pairs the glob has a non-empty image for: a card without
    image is left out and the others keep their places. *)
Theorem generateCards_pairs (cardImages : gmap string string) :
  pairOf <$> generateCards cardImages
  = filter (λ p, assetPresent cardImages p.1 p.2) nestedPairs.
Proof. apply generateCards_filter. Qed.

Lemma foldl_invariant {A B} (P : A → Prop) (f : A → B → A) (l : list B) a :
  P a → (∀ a x, x ∈ l → P a → P (f a x)) → P (foldl f a l).
Proof.
  revert a. induction l as [|x l IH]; intros a Ha Hstep; [done|].
  cbn. apply IH.
  - apply Hstep; [by left|done].
  - intros a' y Hy. apply Hstep. by right.
Qed.

Lemma generateCards_invariant (P : list Card → Prop) cardImages :
  P [] →
  (∀ cards s i, s ∈ suits → 1 ≤ i ≤ 13 → P cards →
                P (pushCard cardImages s cards i)) →
  P (generateCards cardImages).
Proof.
  intros Hnil Hpush. unfold generateCards.
  apply foldl_invariant; [done|]. intros cards s Hs Hcards.
  apply foldl_invariant; [done|]. intros cards' i Hi Hcards'.
  apply Hpush; [done| |done]. apply elem_of_seqZ in Hi. lia.
Qed.

Lemma imagePathOf_digits s i :
  1 ≤ i ≤ 13 →
  ∃ digits, twoDigits !! Z.to_nat (i - 1) = Some digits ∧
            imagePathOf s i = "./assets/" +:+ s +:+ digits +:+ ".png".
Proof.
  intros Hi. assert (Hin : i ∈ seqZ 1 13) by (apply elem_of_seqZ; lia).
  assert (Hall : Forall (λ i, ∃ digits, twoDigits !! Z.to_nat (i - 1) = Some digits ∧
                                        padStart2 (pretty i) = digits)
                        (seqZ 1 13)).
  { apply Forall_forall. intros j Hj. apply elem_of_seqZ in Hj.
    assert (j = 1 ∨ j = 2 ∨ j = 3 ∨ j = 4 ∨ j = 5 ∨ j = 6 ∨ j = 7 ∨ j = 8 ∨
            j = 9 ∨ j = 10 ∨ j = 11 ∨ j = 12 ∨ j = 13) as Hcases by lia.
    repeat destruct Hcases as [->|Hcases]; try subst j;
      (eexists; split; [reflexivity|by vm_compute]). }
  rewrite Forall_forall in Hall. destruct (Hall i Hin) as (digits & Hd & Hpad).
  exists digits. split; [done|]. unfold imagePathOf. by rewrite Hpad.
Qed.

(** Every generated card carries the image the glob has under
    [./assets/<suit><value in two digits>.png], and that image is not the
    empty string. *)
Theorem generateCards_images (cardImages : gmap string string) :
  Forall (λ c, ∃ digits,
            twoDigits !! Z.to_nat (value c - 1) = Some digits ∧
            cardImages !! ("./assets/" +:+ suit c +:+ digits +:+ ".png")
            = Some (image c) ∧
            image c ≠ "")
         (generateCards cardImages).
Proof.
  apply (generateCards_invariant
           (Forall (λ c, ∃ digits,
                      twoDigits !! Z.to_nat (value c - 1) = Some digits ∧
                      cardImages !! ("./assets/" +:+ suit c +:+ digits +:+ ".png")
                      = Some (image c) ∧
                      image c ≠ ""))); [done|].
  intros cards s i _ Hi Hcards. unfold pushCard.
  destruct (cardImages !! imagePathOf s i) as [url|] eqn:Hurl; [|done].
  case_bool_decide as Hne; [|done].
  apply Forall_app. split; [done|]. constructor; [|done]. cbn [suit value image].
  destruct (imagePathOf_digits s i Hi) as (digits & Hd & Hpath).
  exists digits. split; [done|]. split; [|done]. by rewrite <- Hpath.
Qed.

Lemma suits_known s : s ∈ suits → s ∈ suitsInOrder.
Proof.
  revert s. apply Forall_forall.
  apply (bool_decide_unpack _). vm_compute. reflexivity.
Qed.

Lemma generateCards_legal cardImages :
  Forall legalCard (generateCards cardImages).
Proof.
  apply (generateCards_invariant (Forall legalCard)); [done|].
  intros cards s i Hs Hi Hlegal. unfold pushCard.
  destruct (cardImages !! imagePathOf s i) as [url|]; [|done].
  case_bool_decide; [|done].
  apply Forall_app. split; [done|]. constructor; [|done].
  split; [by apply suits_known|done].
Qed.

Lemma legal_same_id a b :
  legalCard a → legalCard b → getCardNumber a = getCardNumber b →
  pairOf a = pairOf b.
Proof.
  intros Ha Hb Heq.
  rewrite (getCardNumber_legal a Ha), (getCardNumber_legal b Hb) in Heq.
  injection Heq as Heq. destruct Ha as [Hsa Hva], Hb as [Hsb Hvb].
  pose proof (ordinal_range _ Hsa). pose proof (ordinal_range _ Hsb).
  assert (ordinal (suit a) = ordinal (suit b)) by lia.
  unfold pairOf. f_equal; [by apply ordinal_inj | lia].
Qed.

(** Legal cards with pairwise different (suit, rank) pairs have pairwise
    different ids. *)
Lemma legal_pairs_idsDistinct cards :
  Forall legalCard cards → NoDup (pairOf <$> cards) → idsDistinct cards.
Proof.
  intros Hlegal Hpairs. rewrite Forall_forall in Hlegal. split.
  - apply Forall_forall. intros c Hc.
    rewrite (getCardNumber_legal c) by (by apply Hlegal). by eexists.
  - apply NoDup_fmap_2_strong; [|by apply NoDup_fmap_1 in Hpairs].
    intros a b Ha Hb Heq. apply (NoDup_fmap_eq pairOf cards); [done..|].
    apply legal_same_id; auto.
Qed.

Lemma nestedPairs_NoDup : NoDup nestedPairs.
Proof. apply (bool_decide_unpack _). vm_compute. reflexivity. Qed.

Lemma generateCards_NoDup cardImages :
  NoDup (pairOf <$> generateCards cardImages).
Proof. rewrite generateCards_filter. apply NoDup_filter, nestedPairs_NoDup. Qed.

(** Whatever images there are, the generated cards are legal, no (suit,
    rank) pair occurs twice, and the ids are pairwise distinct. *)
Theorem generateCards_distinct (cardImages : gmap string string) :
  Forall legalCard (generateCards cardImages) ∧
  NoDup (pairOf <$> generateCards cardImages) ∧
  idsDistinct (generateCards cardImages).
Proof.
  pose proof (generateCards_NoDup cardImages) as Hpairs.
  pose proof (generateCards_legal cardImages) as Hlegal.
  split; [done|]. split; [done|]. by apply legal_pairs_idsDistinct.
Qed.

(** * Invariants of the session *)

Lemma shuffle_perm d r : (shuffle d r).1 ≡ₚ d.
Proof. apply sort_perm. Qed.

Lemma not_inHand_pairs selected c :
  ¬ inHand selected c → pairOf c ∉ pairOf <$> selected.
Proof.
  intros Hnot Hin. apply list_elem_of_fmap in Hin as (c' & Heq & Hc').
  apply Hnot. exists c'. unfold pairOf in Heq. injection Heq as Hs Hv. auto.
Qed.

Lemma alreadySelected_false selected c :
  alreadySelected selected c = false → ¬ inHand selected c.
Proof.
  intros Hfalse Hin. apply alreadySelected_inHand in Hin. congruence.
Qed.

(** What a click does to the hand: nothing, or one new card at the end,
    and then only in [selection], below five cards, for a card not in the
    hand. *)
Lemma handleCardClick_cases st c :
  handleCardClick st c = st ∨
  (gamePhase st = selection ∧ (length (selectedCards st) < 5)%nat ∧
   ¬ inHand (selectedCards st) c ∧
   handleCardClick st c
   = {| deck := deck st; selectedCards := selectedCards st ++ [c];
        reorderedCards := reorderedCards st; gamePhase := gamePhase st;
        isLoading := isLoading st; showHiddenCard := showHiddenCard st |}).
Proof.
  unfold handleCardClick.
  destruct (decide (gamePhase st ≠ selection)) as [|Hsel]; [by left|].
  case_decide; [by left|].
  destruct (alreadySelected (selectedCards st) c) eqn:Hsel'; [by left|].
  right. split; [|split; [lia|split; [by apply alreadySelected_false|done]]].
  destruct (gamePhase st); [done|]. exfalso. by apply Hsel.
Qed.

Lemma reachable_hand_inv st :
  reachable st →
  (length (selectedCards st) ≤ 5)%nat ∧ NoDup (pairOf <$> selectedCards st).
Proof.
  induction 1 as [|e st r Hreach [Hlen Hnodup]]; [split; [cbn; lia|constructor]|].
  destruct e as [imgs|c| | |]; cbn [step fst].
  - unfold mountEffect. by destruct (shuffle _ r).
  - destruct (handleCardClick_cases st c) as [->|(_ & Hlt & Hnot & ->)]; [done|].
    cbn [selectedCards]. split; [rewrite length_app; cbn; lia|].
    rewrite fmap_app. apply NoDup_app. split; [done|]. split.
    + intros p Hp Hp'. apply list_elem_of_singleton in Hp' as ->.
      by apply (not_inHand_pairs _ _ Hnot).
    + apply NoDup_singleton.
  - unfold handleReorder. case_decide; [done|].
    by destruct (selectedCards st !! 4%nat).
  - unfold handleReset. destruct (shuffle _ r). cbn. split; [lia|constructor].
  - done.
Qed.

(** In every reachable state the hand has at most five cards and no two
    of them agree in suit and value. *)
Theorem reachable_hand (st : AppState) :
  reachable st →
  (length (selectedCards st) ≤ 5)%nat ∧ NoDup (pairOf <$> selectedCards st).
Proof. apply reachable_hand_inv. Qed.

Lemma reachable_deck_inv st :
  reachable st → Forall legalCard (deck st) ∧ NoDup (pairOf <$> deck st).
Proof.
  induction 1 as [|e st r Hreach [Hlegal Hnodup]]; [split; constructor|].
  destruct e as [imgs|c| | |]; cbn [step fst].
  - unfold mountEffect.
    pose proof (shuffle_perm (generateCards imgs) r) as Hperm.
    destruct (shuffle _ r) as [d r']. cbn [fst deck] in *. rewrite Hperm.
    split; [apply generateCards_legal | apply generateCards_NoDup].
  - by destruct (handleCardClick_cases st c) as [->|(_ & _ & _ & ->)].
  - unfold handleReorder. case_decide; [done|].
    by destruct (selectedCards st !! 4%nat).
  - unfold handleReset.
    pose proof (shuffle_perm (deck st) r) as Hperm.
    destruct (shuffle _ r) as [d r']. cbn [fst deck] in *. by rewrite Hperm.
  - done.
Qed.

(** In every reachable state the deck consists of legal cards, no (suit,
    rank) pair is twice in it, and its ids are pairwise distinct: shuffles
    and resets never lose that. *)
Theorem reachable_deck (st : AppState) :
  reachable st →
  Forall legalCard (deck st) ∧ NoDup (pairOf <$> deck st) ∧ idsDistinct (deck st).
Proof.
  intros Hreach. destruct (reachable_deck_inv st Hreach) as [Hlegal Hnodup].
  split; [done|]. split; [done|]. by apply legal_pairs_idsDistinct.
Qed.

Lemma generateCards_length cardImages :
  (length (generateCards cardImages) ≤ 52)%nat.
Proof.
  rewrite <- (length_fmap pairOf), generateCards_filter.
  etrans; [apply length_filter|]. by vm_compute.
Qed.

Lemma reachable_deck_length st : reachable st → (length (deck st) ≤ 52)%nat.
Proof.
  induction 1 as [|e st r Hreach IH]; [cbn; lia|].
  destruct e as [imgs|c| | |]; cbn [step fst].
  - unfold mountEffect.
    pose proof (shuffle_perm (generateCards imgs) r) as Hperm.
    destruct (shuffle _ r) as [d r']. cbn [fst deck] in *.
    rewrite Hperm. apply generateCards_length.
  - by destruct (handleCardClick_cases st c) as [->|(_ & _ & _ & ->)].
  - unfold handleReorder. case_decide; [done|].
    by destruct (selectedCards st !! 4%nat).
  - unfold handleReset.
    pose proof (shuffle_perm (deck st) r) as Hperm.
    destruct (shuffle _ r) as [d r']. cbn [fst deck] in *. by rewrite Hperm.
  - done.
Qed.

(** C7.  Whatever numbers [Math.random] returns, the shuffle of a deck of
    fewer than 64 cards is a permutation of it.  The program's decks are
    such decks: the deck after the mount effect is a permutation of the
    generated cards, which are at most 52, and in every reachable state
    the deck after a reset is a permutation of the deck before, which has
    at most 52 cards. *)
Theorem shuffle_permutation :
  (∀ d r, (length d < 64)%nat → (shuffle d r).1 ≡ₚ d) ∧
  (∀ cardImages st r,
     deck (mountEffect cardImages st r).1 ≡ₚ generateCards cardImages ∧
     (length (generateCards cardImages) ≤ 52)%nat) ∧
  (∀ st r, reachable st →
           deck (handleReset st r).1 ≡ₚ deck st ∧
           (length (deck st) ≤ 52)%nat).
Proof.
  split; [|split].
  - intros d r _. apply shuffle_perm.
  - intros imgs st r. split; [|apply generateCards_length].
    unfold mountEffect. pose proof (shuffle_perm (generateCards imgs) r) as Hperm.
    by destruct (shuffle (generateCards imgs) r).
  - intros st r Hreach. split; [|by apply reachable_deck_length].
    unfold handleReset. pose proof (shuffle_perm (deck st) r) as Hperm.
    by destruct (shuffle (deck st) r).
Qed.

Lemma reachable_arrangement_inv st :
  reachable st →
  match gamePhase st with
  | selection => reorderedCards st = []
  | reordered =>
      ∃ fifthCard, selectedCards st !! 4%nat = Some fifthCard ∧
                   reorderedCards st
                   = fifthCard :: canonicalOrder (take 4 (selectedCards st))
  end.
Proof.
  induction 1 as [|e st r Hreach IH]; [done|].
  destruct e as [imgs|c| | |]; cbn [step fst].
  - unfold mountEffect. by destruct (shuffle _ r).
  - destruct (handleCardClick_cases st c) as [->|(Hsel & _ & _ & ->)]; [done|].
    cbn. by rewrite Hsel in IH |- *.
  - unfold handleReorder. case_decide; [done|].
    destruct (selectedCards st !! 4%nat) as [fifthCard|] eqn:Hfifth;
      [|apply lookup_ge_None in Hfifth; lia].
    cbn. exists fifthCard. by rewrite sortedCardsOf_canonical.
  - unfold handleReset. by destruct (shuffle _ r).
  - done.
Qed.

(** The stored arrangement is empty throughout [selection]; throughout
    [reordered] it is the fifth selected card followed by a permutation of
    the first four, which is ascending in the ids when these four all have
    one, whatever was clicked or toggled since. *)
Theorem reachable_arrangement (st : AppState) :
  reachable st →
  match gamePhase st with
  | selection => reorderedCards st = []
  | reordered =>
      ∃ fifthCard fourCards,
        selectedCards st !! 4%nat = Some fifthCard ∧
        reorderedCards st = fifthCard :: fourCards ∧
        fourCards ≡ₚ take 4 (selectedCards st) ∧
        (idsDefined (take 4 (selectedCards st)) →
         StronglySorted (ascending cardKey) fourCards)
  end.
Proof.
  intros Hreach. pose proof (reachable_arrangement_inv st Hreach) as Hinv.
  destruct (gamePhase st); [done|]. destruct Hinv as (fifthCard & Hfifth & Harr).
  exists fifthCard, (canonicalOrder (take 4 (selectedCards st))).
  split; [done|]. split; [done|]. split; [apply canonicalOrder_perm|].
  apply canonicalOrder_ascending.
Qed.

(** * The session driven through the page *)

Lemma uiReachable_reachable st : uiReachable st → reachable st.
Proof.
  induction 1 as [imgs r|e st r Hui IH Hoffer].
  - apply reachable_step, reachable_init.
  - by apply reachable_step.
Qed.

Lemma render_loaded st :
  isLoading st = false →
  render st
  = match gamePhase st with
    | selection =>
        SelectionView
          (length (selectedCards st))
          (if bool_decide (0 < length (selectedCards st))%nat
           then Some (numbered (selectedCards st)) else None)
          (bool_decide (length (selectedCards st) = 5%nat))
          (renderCell st <$> deck st)
    | reordered =>
        ReorderedView
          (if showHiddenCard st then reorderedCards st !! 0%nat else None)
          (if showHiddenCard st then "HIDE" else "SHOW")
          (numbered (drop 1 (reorderedCards st)))
    end.
Proof. intros Hloaded. unfold render. by rewrite Hloaded. Qed.

Lemma grid_cards st : cellCard <$> (renderCell st <$> deck st) = deck st.
Proof. rewrite <- list_fmap_compose. apply list_fmap_id. Qed.

Lemma uiReachable_inv st :
  uiReachable st →
  isLoading st = false ∧ Forall (λ c, c ∈ deck st) (selectedCards st).
Proof.
  induction 1 as [imgs r|e st r Hui [Hloaded Hsub] Hoffer].
  - cbn [step]. unfold mountEffect. destruct (shuffle _ r). by split.
  - rewrite render_loaded in Hoffer by done.
    destruct e as [imgs|c| | |]; cbn [step fst].
    + by destruct (gamePhase st).
    + destruct (gamePhase st); [|done]. cbn in Hoffer.
      rewrite grid_cards in Hoffer.
      destruct (handleCardClick_cases st c) as [->|(_ & _ & _ & ->)]; [done|].
      cbn. split; [done|]. apply Forall_app. split; [done|]. by constructor.
    + unfold handleReorder.
      destruct (decide (length (selectedCards st) ≠ 5%nat)); [done|].
      by destruct (selectedCards st !! 4%nat).
    + unfold handleReset. destruct (shuffle _ r). by split.
    + done.
Qed.

Lemma uiReachable_hand_inv st :
  uiReachable st →
  Forall legalCard (selectedCards st) ∧ idsDistinct (selectedCards st).
Proof.
  intros Hui. destruct (uiReachable_inv st Hui) as [_ Hsub].
  apply uiReachable_reachable in Hui.
  destruct (reachable_deck_inv st Hui) as [Hlegal _].
  destruct (reachable_hand_inv st Hui) as [_ Hnodup].
  assert (Hhand : Forall legalCard (selectedCards st)).
  { rewrite Forall_forall in *. intros c Hc. by apply Hlegal, Hsub. }
  split; [done|]. by apply legal_pairs_idsDistinct.
Qed.

(** In a session driven through the page every selected card is a card of
    the deck, hence legal, and the ids in the hand are pairwise distinct:
    the sort of [handleReorder] never meets a [NaN] or a tie. *)
Theorem uiReachable_hand (st : AppState) :
  uiReachable st →
  Forall (λ c, c ∈ deck st) (selectedCards st) ∧
  Forall legalCard (selectedCards st) ∧
  idsDistinct (selectedCards st).
Proof.
  intros Hui. destruct (uiReachable_inv st Hui) as [_ Hsub].
  destruct (uiReachable_hand_inv st Hui) as [Hlegal Hd]. done.
Qed.

Lemma idsDistinct_take n cards : idsDistinct cards → idsDistinct (take n cards).
Proof.
  intros [Hdef Hnodup]. split; [by apply Forall_take|].
  rewrite <- (take_drop n cards), fmap_app in Hnodup.
  by apply NoDup_app in Hnodup as [? _].
Qed.

(** On the reordered screen of a session driven through the page, the row
    shows the first four selected cards in strictly ascending order of
    their ids, numbered 1 to 4, and the face-down slot shows the fifth
    selected card when the toggle is on and the card back otherwise. *)
Theorem render_reordered (st : AppState) :
  uiReachable st → gamePhase st = reordered →
  ∃ fifthCard fourCards,
    selectedCards st !! 4%nat = Some fifthCard ∧
    fourCards ≡ₚ take 4 (selectedCards st) ∧
    StronglySorted cardLt fourCards ∧
    render st
    = ReorderedView (if showHiddenCard st then Some fifthCard else None)
                    (if showHiddenCard st then "HIDE" else "SHOW")
                    (numbered fourCards).
Proof.
  intros Hui Hphase.
  destruct (uiReachable_inv st Hui) as [Hloaded _].
  destruct (uiReachable_hand_inv st Hui) as [_ Hd].
  pose proof (reachable_arrangement_inv st (uiReachable_reachable st Hui)) as Harr.
  rewrite Hphase in Harr. destruct Harr as (fifthCard & Hfifth & Harr).
  exists fifthCard, (canonicalOrder (take 4 (selectedCards st))).
  split; [done|]. split; [apply canonicalOrder_perm|].
  split; [by apply canonicalOrder_strict, idsDistinct_take|].
  rewrite render_loaded, Hphase, Harr by done. done.
Qed.

(** The marks of the grid tell what a click does: on a cell marked
    [selected] or [disabled] it changes nothing, on any other cell it
    appends the card of the cell to the hand. *)
Theorem grid_click (st : AppState) n preview button grid (cell : DeckCell) :
  render st = SelectionView n preview button grid → cell ∈ grid →
  if cellSelected cell || cellDisabled cell
  then handleCardClick st (cellCard cell) = st
  else selectedCards (handleCardClick st (cellCard cell))
       = selectedCards st ++ [cellCard cell].
Proof.
  unfold render. destruct (isLoading st); [done|].
  destruct (gamePhase st) eqn:Hphase; [|done].
  intros [= <- <- <- <-] Hcell.
  apply list_elem_of_fmap in Hcell as (c & -> & Hc). cbn.
  unfold handleCardClick. rewrite Hphase.
  rewrite decide_False by (intros Hne; by apply Hne).
  destruct (alreadySelected (selectedCards st) c); cbn.
  - by case_decide.
  - case_bool_decide; [by rewrite decide_True|by rewrite decide_False].
Qed.

(** The reorder button is on the selection screen exactly when the hand
    has five cards, and pressing it then leads to the reordered screen
    with the hidden card face down. *)
Theorem reorder_button (st : AppState) n preview button grid :
  render st = SelectionView n preview button grid →
  (button = true ↔ length (selectedCards st) = 5%nat) ∧
  (button = true →
   ∃ fourCards, render (handleReorder st) = ReorderedView None "SHOW" fourCards ∧
                length fourCards = 4%nat).
Proof.
  unfold render. destruct (isLoading st) eqn:Hloaded; [done|].
  destruct (gamePhase st) eqn:Hphase; [|done].
  intros [= <- <- <- <-]. split; [apply bool_decide_eq_true|].
  intros Hlen%bool_decide_eq_true.
  destruct (lookup_lt_is_Some_2 (selectedCards st) 4) as [fifthCard Hfifth];
    [lia|].
  unfold handleReorder. rewrite decide_False by (intros Hne; by apply Hne).
  rewrite Hfifth. cbn [isLoading gamePhase showHiddenCard reorderedCards].
  rewrite Hloaded. eexists. split; [done|].
  unfold numbered. rewrite length_imap. cbn [drop].
  rewrite drop_0, sortedCardsOf_canonical, canonicalOrder_perm, length_take. lia.
Qed.

(** After "Start Over" in a session driven through the page, the page
    shows the selection screen with nothing selected: count 0, no preview,
    no reorder button, and a grid that is a permutation of the deck with
    no cell marked. *)
Theorem render_after_reset (st : AppState) (r : RandomSource) :
  uiReachable st →
  ∃ d, d ≡ₚ deck st ∧
       render (handleReset st r).1
       = SelectionView 0 None false ((λ c, mkCell c false false) <$> d).
Proof.
  intros Hui. destruct (uiReachable_inv st Hui) as [Hloaded _].
  unfold handleReset.
  pose proof (shuffle_perm (deck st) r) as Hperm.
  destruct (shuffle (deck st) r) as [d r']. cbn [fst] in *.
  exists d. split; [done|]. unfold render. cbn [isLoading gamePhase]. by rewrite Hloaded.
Qed.

(** * How the handlers compose *)

(** Pressing the reorder button a second time changes nothing more. *)
Theorem handleReorder_idempotent (st : AppState) :
  handleReorder (handleReorder st) = handleReorder st.
Proof.
  unfold handleReorder.
  destruct (decide (length (selectedCards st) ≠ 5%nat)) as [Hne|Heq].
  - by rewrite decide_True.
  - destruct (selectedCards st !! 4%nat) as [fifthCard|] eqn:Hfifth; cbn.
    + rewrite decide_False by done. by rewrite Hfifth.
    + rewrite decide_False by done. by rewrite Hfifth.
Qed.

(** Two presses of the toggle give the state back. *)
Theorem toggleReveal_twice (st : AppState) :
  toggleReveal (toggleReveal st) = st.
Proof. destruct st as [d s ro p l b]. unfold toggleReveal. cbn. by rewrite negb_involutive. Qed.

(** The loading screen is what the first render shows, and a session
    driven through the page never shows it again after the mount effect. *)
Theorem loading_screen :
  render initialState = LoadingView ∧
  ∀ st, uiReachable st → isLoading st = false ∧ render st ≠ LoadingView.
Proof.
  split; [done|]. intros st Hui.
  destruct (uiReachable_inv st Hui) as [Hloaded _]. split; [done|].
  rewrite render_loaded by done. by destruct (gamePhase st).
Qed.

(** The row of four that [handleReorder] stores depends only on which
    cards the first four are: neither their order of selection nor the
    fifth, hidden card changes it. *)
Theorem handleReorder_row_only_depends_on_set (st st' : AppState) :
  length (selectedCards st) = 5%nat → length (selectedCards st') = 5%nat →
  idsDistinct (take 4 (selectedCards st)) →
  take 4 (selectedCards st') ≡ₚ take 4 (selectedCards st) →
  drop 1 (reorderedCards (handleReorder st'))
  = drop 1 (reorderedCards (handleReorder st)).
Proof. apply handleReorder_display_ignores_order. Qed.

(** * Sample runs *)

Lemma runEvents_reachable es st r : reachable st → reachable (runEvents es st r).
Proof.
  revert st r. induction es as [|e es IH]; intros st r Hreach; [done|].
  cbn [runEvents]. by apply IH, reachable_step.
Qed.

Lemma runEvents_uiReachable es st r :
  uiReachable st → allOffered es st r → uiReachable (runEvents es st r).
Proof.
  revert st r. induction es as [|e es IH]; intros st r Hui Hoffered; [done|].
  destruct Hoffered as [Hoffer Hoffered].
  cbn [runEvents]. apply IH; [|done]. by apply uiReachable_step.
Qed.

Lemma mountedState_uiReachable : uiReachable mountedState.
Proof. apply uiReachable_mount. Qed.

Lemma pickedState_uiReachable : uiReachable pickedState.
Proof.
  apply runEvents_uiReachable; [apply mountedState_uiReachable|].
  apply (@bool_decide_unpack _ (allOffered_dec _ _ _)). vm_compute. reflexivity.
Qed.

Lemma playedState_uiReachable : uiReachable playedState.
Proof.
  apply uiReachable_step; [apply pickedState_uiReachable|].
  apply (@bool_decide_unpack _ (offers_dec _ _)). vm_compute. reflexivity.
Qed.

Lemma playedState_reordered : gamePhase playedState = reordered.
Proof. vm_compute. reflexivity. Qed.

Lemma misspeltHand_unknown : Forall unknownSuit misspeltHand.
Proof. apply (bool_decide_unpack _). vm_compute. reflexivity. Qed.

Lemma misspeltHand_NoDup : NoDup misspeltHand.
Proof. apply (bool_decide_unpack _). vm_compute. reflexivity. Qed.

Lemma ascendingHand_NoDup : NoDup ascendingHand.
Proof. apply (bool_decide_unpack _). vm_compute. reflexivity. Qed.

Lemma ascendingHand_defined : idsDefined ascendingHand.
Proof. apply (bool_decide_unpack _). vm_compute. reflexivity. Qed.

Lemma ascendingHand_ascending : StronglySorted (ascending cardKey) ascendingHand.
Proof. repeat constructor; vm_compute; discriminate. Qed.

Lemma descendingHand_defined : idsDefined descendingHand.
Proof. apply (bool_decide_unpack _). vm_compute. reflexivity. Qed.

Lemma descendingHand_descending : StronglySorted (flip cardLt) descendingHand.
Proof. repeat constructor; vm_compute; reflexivity. Qed.

Lemma getCardNumber_NaN_iff_witness :
  unknownSuit (mkCard 0 "club" 3 "a") ∧ getCardNumber (mkCard 0 "club" 3 "a") = None.
Proof.
  assert (Hunknown : unknownSuit (mkCard 0 "club" 3 "a"))
    by (apply (bool_decide_unpack _); vm_compute; reflexivity).
  split; [exact Hunknown|].
  exact (proj2 (getCardNumber_NaN_iff (mkCard 0 "club" 3 "a")) Hunknown).
Defined.

Lemma getPermutationNumber_objects_range_witness :
  1 ≤ getPermutationNumber misspeltHand ≤ 24.
Proof.
  apply (getPermutationNumber_objects_range misspeltHand);
    [reflexivity | exact misspeltHand_NoDup].
Defined.

Lemma getPermutationNumber_ascending_witness :
  getPermutationNumber ascendingHand = 1.
Proof.
  apply (getPermutationNumber_ascending ascendingHand);
    [reflexivity | exact ascendingHand_NoDup | exact ascendingHand_defined
    | exact ascendingHand_ascending].
Defined.

Lemma getPermutationNumber_descending_witness :
  getPermutationNumber descendingHand = 24.
Proof.
  apply (getPermutationNumber_descending descendingHand);
    [reflexivity | exact descendingHand_defined | exact descendingHand_descending].
Defined.

Lemma getPermutationNumber_unknown_suits_witness :
  getPermutationNumber misspeltHand = 1.
Proof.
  apply (getPermutationNumber_unknown_suits misspeltHand);
    [reflexivity | exact misspeltHand_NoDup | exact misspeltHand_unknown].
Defined.

Lemma getPermutationNumber_lexicographic_witness :
  getPermutationNumber ascendingHand < getPermutationNumber scenarioOrder.
Proof.
  apply (getPermutationNumber_lexicographic ascendingHand scenarioOrder).
  - reflexivity.
  - split; apply (bool_decide_unpack _); vm_compute; reflexivity.
  - apply (bool_decide_unpack _). vm_compute. reflexivity.
  - apply (bool_decide_unpack _). vm_compute. reflexivity.
Defined.

Lemma reachable_hand_witness :
  (length (selectedCards pickedState) ≤ 5)%nat ∧
  NoDup (pairOf <$> selectedCards pickedState).
Proof.
  apply (reachable_hand pickedState).
  apply uiReachable_reachable, pickedState_uiReachable.
Defined.

Lemma reachable_deck_witness :
  Forall legalCard (deck playedState) ∧ NoDup (pairOf <$> deck playedState) ∧
  idsDistinct (deck playedState).
Proof.
  apply (reachable_deck playedState).
  apply uiReachable_reachable, playedState_uiReachable.
Defined.

Lemma reachable_arrangement_witness :
  ∃ fifthCard fourCards,
    selectedCards playedState !! 4%nat = Some fifthCard ∧
    reorderedCards playedState = fifthCard :: fourCards ∧
    fourCards ≡ₚ take 4 (selectedCards playedState) ∧
    (idsDefined (take 4 (selectedCards playedState)) →
     StronglySorted (ascending cardKey) fourCards).
Proof.
  pose proof (reachable_arrangement playedState
                (uiReachable_reachable _ playedState_uiReachable)) as H.
  rewrite playedState_reordered in H. exact H.
Defined.

Lemma uiReachable_hand_witness :
  Forall (λ c, c ∈ deck playedState) (selectedCards playedState) ∧
  Forall legalCard (selectedCards playedState) ∧
  idsDistinct (selectedCards playedState).
Proof. apply (uiReachable_hand playedState), playedState_uiReachable. Defined.

Lemma render_reordered_witness :
  ∃ fifthCard fourCards,
    selectedCards playedState !! 4%nat = Some fifthCard ∧
    fourCards ≡ₚ take 4 (selectedCards playedState) ∧
    StronglySorted cardLt fourCards ∧
    render playedState
    = ReorderedView (if showHiddenCard playedState then Some fifthCard else None)
                    (if showHiddenCard playedState then "HIDE" else "SHOW")
                    (numbered fourCards).
Proof.
  apply (render_reordered playedState);
    [exact playedState_uiReachable | exact playedState_reordered].
Defined.

Lemma grid_click_witness :
  selectedCards (handleCardClick dealtState threeOfClubs)
  = selectedCards dealtState ++ [threeOfClubs].
Proof.
  assert (Hview : render dealtState
                  = SelectionView 0 None false (renderCell dealtState <$> deck dealtState))
    by reflexivity.
  assert (Hcell : mkCell threeOfClubs false false
                  ∈ renderCell dealtState <$> deck dealtState)
    by (apply (bool_decide_unpack _); vm_compute; reflexivity).
  exact (grid_click dealtState 0 None false _ _ Hview Hcell).
Defined.

Lemma reorder_button_witness :
  ∃ fourCards,
    render (handleReorder scenarioState) = ReorderedView None "SHOW" fourCards ∧
    length fourCards = 4%nat.
Proof.
  assert (Hview : render scenarioState
                  = SelectionView 5 (Some (numbered (selectedCards scenarioState)))
                      true (renderCell scenarioState <$> deck scenarioState))
    by reflexivity.
  exact (proj2 (reorder_button scenarioState _ _ _ _ Hview) eq_refl).
Defined.

Lemma render_after_reset_witness :
  ∃ d, d ≡ₚ deck playedState ∧
       render (handleReset playedState zeroRandom).1
       = SelectionView 0 None false ((λ c, mkCell c false false) <$> d).
Proof.
  apply (render_after_reset playedState zeroRandom), playedState_uiReachable.
Defined.

Lemma factorial_fact_witness : factorial 5 = 120.
Proof. rewrite (factorial_fact 5) by lia. reflexivity. Defined.

Lemma shuffle_permutation_witness :
  (shuffle scenarioHand zeroRandom).1 ≡ₚ scenarioHand.
Proof. apply (proj1 shuffle_permutation scenarioHand zeroRandom). simpl. lia. Defined.

Lemma loading_screen_witness :
  isLoading playedState = false ∧ render playedState ≠ LoadingView.
Proof. apply (proj2 loading_screen playedState), playedState_uiReachable. Defined.

Lemma handleReorder_row_only_depends_on_set_witness :
  drop 1 (reorderedCards (handleReorder otherState))
  = drop 1 (reorderedCards (handleReorder scenarioState)).
Proof.
  apply (handleReorder_row_only_depends_on_set scenarioState otherState).
  - reflexivity.
  - reflexivity.
  - split; apply (bool_decide_unpack _); vm_compute; reflexivity.
  - apply (bool_decide_unpack _). vm_compute. reflexivity.
Defined.
